(** * dynamo-down: a LevelDOWN adapter over DynamoDB

    A shallow embedding of [src/dynamo-down.js] and the properties of its
    value codec ([serialize] / [parse]), its key/item mapper ([_toItem] /
    [_toKV]), its range-query iterator ([DynamoIterator]) and its batched
    writer ([_batch]).

    Conventions of the embedding:
    - a JavaScript object used as a dictionary is a [gmap string _]: property
      read is lookup, assignment is insert, [delete] is delete.  Only own
      properties are modelled.  The code reads [value.constructor] and
      assigns [acc[key]] through the prototype chain, so that the map stands
      for the object only when no own property is named [constructor] or
      [__proto__]: the properties about objects that come from [JSON.parse]
      or from the client are stated for such values ([plain], [plain_attr]);
      the enumeration order of [Object.keys] is not modelled either (the
      traversal order of the map stands for it), and the properties never
      depend on it;
    - a JavaScript array is a [list];
    - [throw] is the [Throw] result; a Node-style callback [cb(err, ...)] is
      the value returned by the embedded function;
    - what the JavaScript runtime provides ([String(n)], [parseFloat],
      [JSON.parse], [JSON.stringify], [new Buffer(x)]) is a parameter of the
      development, packaged in the classes [Numbers] and [Host];
    - the DynamoDB client ([this._dynamo]) is an argument: either the answer
      it gives to the one request of an operation, or the list of answers it
      gives to the successive requests of an operation. *)

From Stdlib Require Import NArith ZArith Lia Ascii String Strings.Byte DecimalString.
From stdpp Require Import gmap strings list fin_maps.

Set Default Proof Using "Type".
Local Set Warnings "-register-all".

(** ** Errors and results *)

(** A JavaScript error object: the constructor's name and the message. *)
Record exn := Exn { exn_name : string; exn_message : string }.

Definition Error (message : string) : exn := Exn "Error" message.
Definition TypeError (message : string) : exn := Exn "TypeError" message.

(** The outcome of an expression that may [throw]. *)
Inductive result (A : Type) : Type :=
| Ok (a : A)
| Throw (e : exn).
Arguments Ok {A} a.
Arguments Throw {A} e.

#[global] Instance result_ret : MRet result := fun A a => Ok a.
#[global] Instance result_bind : MBind result := fun A B f r =>
  match r with Ok a => f a | Throw e => Throw e end.
#[global] Instance result_fmap : FMap result := fun A B f r =>
  match r with Ok a => Ok (f a) | Throw e => Throw e end.

(** [Object.keys(m).reduce((acc, k) => { acc[k] = f(m[k]); return acc }, {})]
    once [f] has been applied to every entry: the first entry (in traversal
    order) that threw decides the outcome.  The traversal order of a map is
    not the order of [Object.keys]: when several entries throw, the properties
    only say that the error is the one of some entry. *)
Definition map_sequence {A} (m : gmap string (result A)) : result (gmap string A) :=
  map_fold (fun k r acc => acc ≫= fun m' => r ≫= fun a => Ok (<[k:=a]> m')) (Ok ∅) m.

(** ** Base64, as [buf.toString("base64")] and [Buffer(text, "base64")] *)

Module Base64.

Definition alphabet : string :=
  "ABCDEFGHIJKLMNOPQRSTUVWXYZabcdefghijklmnopqrstuvwxyz0123456789+/".

Definition pad : ascii := "="%char.

(** The character of a 6-bit digit. *)
Definition char_of (i : N) : ascii :=
  match String.get (N.to_nat i) alphabet with
  | Some c => c
  | None => pad
  end.

Fixpoint index_from (i : N) (c : ascii) (s : string) : option N :=
  match s with
  | EmptyString => None
  | String c' s' => if Ascii.eqb c c' then Some i else index_from (N.succ i) c s'
  end.

(** The 6-bit digit of a character, if it has one: the decoder also reads
    the two characters of the URL-safe alphabet, [-] as 62 and [_] as 63. *)
Definition digit_of (c : ascii) : option N :=
  if Ascii.eqb c "-" then Some 62%N
  else if Ascii.eqb c "_" then Some 63%N
  else index_from 0 c alphabet.

Definition byte_of (n : N) : list byte :=
  match Byte.of_N n with
  | Some b => [b]
  | None => []
  end.

(** Three bytes give four digits; a last group of one or two bytes gives
    two or three digits and is padded with [=]. *)
Fixpoint encode (bs : list byte) : string :=
  match bs with
  | [] => EmptyString
  | [b1] =>
      let x1 := Byte.to_N b1 in
      String (char_of (x1 / 4))
        (String (char_of ((x1 mod 4) * 16)) (String pad (String pad EmptyString)))
  | [b1; b2] =>
      let x1 := Byte.to_N b1 in
      let x2 := Byte.to_N b2 in
      String (char_of (x1 / 4))
        (String (char_of ((x1 mod 4) * 16 + x2 / 16))
           (String (char_of ((x2 mod 16) * 4)) (String pad EmptyString)))
  | b1 :: b2 :: b3 :: rest =>
      let x1 := Byte.to_N b1 in
      let x2 := Byte.to_N b2 in
      let x3 := Byte.to_N b3 in
      String (char_of (x1 / 4))
        (String (char_of ((x1 mod 4) * 16 + x2 / 16))
           (String (char_of ((x2 mod 16) * 4 + x3 / 64))
              (String (char_of (x3 mod 64)) (encode rest))))
  end%N.

(** The digits of a text: decoding stops at the first [=] and skips the
    characters that have no digit. *)
Fixpoint digits (s : string) : list N :=
  match s with
  | EmptyString => []
  | String c s' =>
      if Ascii.eqb c pad then []
      else match digit_of c with
           | Some d => d :: digits s'
           | None => digits s'
           end
  end.

Fixpoint bytes_of_digits (ds : list N) : list byte :=
  match ds with
  | d1 :: d2 :: d3 :: d4 :: rest =>
      byte_of (d1 * 4 + d2 / 16) ++ byte_of ((d2 mod 16) * 16 + d3 / 4)
        ++ byte_of ((d3 mod 4) * 64 + d4) ++ bytes_of_digits rest
  | [d1; d2; d3] =>
      byte_of (d1 * 4 + d2 / 16) ++ byte_of ((d2 mod 16) * 16 + d3 / 4)
  | [d1; d2] => byte_of (d1 * 4 + d2 / 16)
  | _ => []
  end%N.

Definition decode (s : string) : list byte := bytes_of_digits (digits s).

End Base64.

(** ** Numbers *)

(** JavaScript numbers are IEEE doubles; the codec only prints them
    ([String(n)]), reads them back ([parseFloat]) and, in the planner, tests
    them for truthiness.  These are taken from the runtime. *)
Class Numbers := {
  number : Type;
  Number_toString : number -> string;
  parseFloat : string -> number;
  Number_toBoolean : number -> bool
}.

(** ** The value codec *)

Section Codec.
Context `{Numbers}.

(** A runtime value as [serialize] sees it.  [VUndefined] is an absent
    value.  [VObject m] is a plain object (an object literal, a result of
    [JSON.parse]) with the own properties [m].  [VInstance m] is an object
    with the own enumerable properties [m] that is not a plain object, but
    whose [constructor.name] is [Object] all the same: an instance of a class
    of that name, or the result of [Object.create] on a plain object.
    [VOther c] is a value of any other type (a function, a [Date], a symbol,
    ...), [c] being its [constructor.name], which is then none of the six
    names of [handled]. *)
Inductive value : Type :=
| VUndefined
| VNull
| VString (s : string)
| VNumber (n : number)
| VBoolean (b : bool)
| VBuffer (bs : list byte)
| VArray (l : list value)
| VObject (m : gmap string value)
| VInstance (m : gmap string value)
| VOther (c : string).

(** A DynamoDB attribute value: an object with one key, the type tag.
    [A_unknown tag] is an object whose first key is none of the seven. *)
Inductive attr : Type :=
| A_NULL (b : bool)
| A_S (s : string)
| A_B (s : string)
| A_BOOL (b : bool)
| A_N (s : string)
| A_L (l : list attr)
| A_M (m : gmap string attr)
| A_unknown (tag : string).

(** The [case] labels of the [switch] in [serialize]. *)
Definition handled : list string :=
  ["String"; "Buffer"; "Boolean"; "Number"; "Array"; "Object"].

(** [value == null || value === ""] *)
Definition is_empty (v : value) : bool :=
  match v with
  | VUndefined | VNull | VString EmptyString => true
  | _ => false
  end.

(** [serialize(value)].  The [switch] is on [value.constructor.name]: this
    is the name of the shape of a primitive, a buffer or an array, [Object]
    for an object ([VObject], [VInstance]) that has no own property named
    [constructor], and [c] for [VOther c].  An object with such a property,
    or with a property named [__proto__] (which [acc[key] = ...] does not
    add), is outside of what the map of the own properties can tell: see
    [plain]. *)
Fixpoint serialize (v : value) : result attr :=
  if is_empty v then Ok (A_NULL true) else
  match v with
  | VUndefined | VNull => Throw (TypeError "Cannot read property 'constructor'")
  | VString s => Ok (A_S s)
  | VBuffer bs => Ok (A_B (Base64.encode bs))
  | VBoolean b => Ok (A_BOOL b)
  | VNumber n => Ok (A_N (Number_toString n))
  | VArray l => A_L <$> mapM serialize l
  | VObject m | VInstance m => A_M <$> map_sequence (serialize <$> m)
  | VOther c => Throw (Error ("Cannot serialize " +:+ c))
  end.

(** [parse(val)].  In a map, [acc[key] = parse(value[key])] adds the
    property [key], except for the key [__proto__]: see [plain_attr]. *)
Fixpoint parse (val : attr) : result value :=
  match val with
  | A_NULL _ => Ok VNull
  | A_S s => Ok (VString s)
  | A_B s => Ok (VBuffer (Base64.decode s))
  | A_BOOL b => Ok (VBoolean b)
  | A_N s => Ok (VNumber (parseFloat s))
  | A_L l => VArray <$> mapM parse l
  | A_M m => VObject <$> map_sequence (parse <$> m)
  | A_unknown tag => Throw (Error ("Cannot parse " +:+ tag +:+ "."))
  end.

End Codec.

(** ** The rest of the runtime *)

Class Host `{Numbers} := {
  (** [JSON.parse(text)] *)
  JSON_parse : string -> result value;
  (** [JSON.stringify(v)] *)
  JSON_stringify : value -> string;
  (** [new Buffer(v)] *)
  new_Buffer : value -> result value
}.

(** What the DynamoDB client hands to a callback [(err, data) => ...]. *)
Inductive answer (A : Type) : Type :=
| Failed (err : exn)
| Answered (data : A).
Arguments Failed {A} err.
Arguments Answered {A} data.

(** ** The adapter: [class DynamoDOWN] *)

Section DynamoDOWN.
Context `{Host}.

(** An item on the wire: attribute name to attribute value. *)
Abbreviation item := (gmap string attr).

(** [this._table] and [this._schema].  The hash value is the second
    component of [location.split("/")]: a string, or absent. *)
Record db := DB {
  table_name : string;
  hash_name : string;
  hash_value : option string;
  range_name : string
}.

Definition value_of_hash (d : db) : value :=
  match hash_value d with
  | Some h => VString h
  | None => VUndefined
  end.

(** [{key, value}] as the mapper returns it. *)
Record kv := KV { kv_key : value; kv_value : gmap string value }.

(** JavaScript truthiness. *)
Definition truthy (v : value) : bool :=
  match v with
  | VUndefined | VNull => false
  | VString s => negb (String.eqb s "")
  | VNumber n => Number_toBoolean n
  | VBoolean b => b
  | VBuffer _ | VArray _ | VObject _ | VInstance _ | VOther _ => true
  end.

(** [target[name] = v] in strict mode (module code).  On an object it is
    an insertion (for a name other than [__proto__], see [plain_schema]).
    On [null], [undefined] and primitives it throws.  On an
    array (or any other object) it adds a property that is not an element,
    which [serialize] never visits. *)
Definition set_property (target : value) (name : string) (v : value) : result value :=
  match target with
  | VObject m => Ok (VObject (<[name:=v]> m))
  | VInstance m => Ok (VInstance (<[name:=v]> m))
  | VUndefined | VNull =>
      Throw (TypeError ("Cannot set property '" +:+ name +:+ "' of null or undefined"))
  | VString _ | VNumber _ | VBoolean _ =>
      Throw (TypeError ("Cannot create property '" +:+ name +:+ "' on a primitive"))
  | VBuffer _ | VArray _ | VOther _ => Ok target
  end.

(** [a.M]: the payload of a map attribute, [undefined] on any other. *)
Definition attr_M (a : attr) : option item :=
  match a with
  | A_M m => Some m
  | _ => None
  end.

(** [value ? JSON.parse(value) : {}], for a value that is a text or absent. *)
Definition parse_or_empty (text : option string) : result value :=
  match text with
  | Some text => if String.eqb text "" then Ok (VObject ∅) else JSON_parse text
  | None => Ok (VObject ∅)
  end.

Definition _toItem (d : db) (key : value) (text : option string)
  : result (option item) :=
  item ← parse_or_empty text;
  item ← set_property item (hash_name d) (value_of_hash d);
  item ← set_property item (range_name d) key;
  a ← serialize item;
  Ok (attr_M a).

Definition _toKV (d : db) (it : item) : result kv :=
  v ← parse (A_M it);
  match v with
  | VObject value =>
      let key := default VUndefined (value !! range_name d) in
      Ok (KV key (delete (hash_name d) value))
  | _ => Throw (TypeError "not an object")
  end.

(** *** get, put, del *)

Record key_request := KeyRequest { kr_TableName : string; kr_Key : option item }.
Record put_request := PutItemRequest { pr_TableName : string; pr_Item : option item }.
Record get_output := GetOutput { Item : option item }.

(** [options.valueEncoding] and [options.asBuffer], absent or set. *)
Record get_options := GetOptions {
  valueEncoding : option string;
  asBuffer : option bool
}.

(** [_get(key, options, cb)]: the result is what [cb] receives, or an
    exception, thrown before the request or inside the client's callback. *)
Definition _get (d : db) (key : value) (options : get_options)
    (getItem : key_request -> answer get_output) : result (answer value) :=
  Key ← _toItem d key None;
  match getItem (KeyRequest (table_name d) Key) with
  | Failed err => Ok (Failed err)
  | Answered data =>
      match Item data with
      | None => Ok (Failed (Error "NotFound"))
      | Some it =>
          r ← _toKV d it;
          let isValue := negb (bool_decide (valueEncoding options = Some "json")) in
          let v := if isValue then default VUndefined (kv_value r !! "value")
                   else VString (JSON_stringify (VObject (kv_value r))) in
          v ← (if bool_decide (asBuffer options = Some false) then Ok v
               else new_Buffer v);
          Ok (Answered v)
      end
  end.

(** [_put(key, value, options, cb)]: the client's error, if any, goes to
    [cb] as it is. *)
Definition _put (d : db) (key : value) (text : option string)
    (putItem : put_request -> option exn) : result (option exn) :=
  it ← _toItem d key text;
  Ok (putItem (PutItemRequest (table_name d) it)).


End DynamoDOWN.

(** ** The range-query iterator: [class DynamoIterator] *)

Section DynamoIterator.
Context `{Host}.

Abbreviation item := (gmap string attr).

(** The options of [iterator(options)].  A bound is [None] when its key is
    not in the options object.  [limit] is a count, [-1] meaning no limit
    (the caller's default); [reverse] is [options.reverse === true]. *)
Record iterator_options := IteratorOptions {
  gt : option value;
  gte : option value;
  lt : option value;
  lte : option value;
  limit : Z;
  reverse : bool
}.

Record bound := Bound { key : value; inclusive : bool }.

Inductive limit_t := Infinity | Finite (n : Z).

Inductive operator := EQ | BETWEEN | GE | GT | LE | LT.

Record condition := Condition {
  ComparisonOperator : operator;
  AttributeValueList : list attr
}.

Record query_params := QueryParams {
  TableName : string;
  KeyConditions : gmap string condition;
  Limit : option Z;
  ScanIndexForward : option bool;
  ExclusiveStartKey : option item
}.

Record query_output := QueryOutput {
  Items : list item;
  LastEvaluatedKey : option item
}.

(** An element of [this._items]: a record, the [null] that closes the
    sequence, or the hole that [delete] leaves. *)
Inductive slot := Entry (r : kv) | Sentinel | Hole.

Record DynamoIterator := Iterator {
  it_db : db;
  _limit : limit_t;
  _reverse : bool;
  _lowerBound : option bound;
  _upperBound : option bound;
  _params : query_params;
  _items : list slot;
  _cursor : nat
}.

(** [a || b] *)
Definition or_else (a b : value) : value := if truthy a then a else b.

(** [options.x], [undefined] when absent. *)
Definition get_option (o : option value) : value := default VUndefined o.

(** [("gt" in options || "gte" in options)
      ? {key: options.gt || options.gte, inclusive: "gte" in options}
      : undefined] *)
Definition lower_bound (o : iterator_options) : option bound :=
  if bool_decide (is_Some (gt o)) || bool_decide (is_Some (gte o))
  then Some (Bound (or_else (get_option (gt o)) (get_option (gte o)))
                   (bool_decide (is_Some (gte o))))
  else None.

Definition upper_bound (o : iterator_options) : option bound :=
  if bool_decide (is_Some (lt o)) || bool_decide (is_Some (lte o))
  then Some (Bound (or_else (get_option (lt o)) (get_option (lte o)))
                   (bool_decide (is_Some (lte o))))
  else None.

(** The condition on the range attribute, if any. *)
Definition range_condition (lo hi : option bound) : result (option condition) :=
  match lo, hi with
  | Some l, Some u =>
      a ← serialize (key l);
      b ← serialize (key u);
      Ok (Some (Condition BETWEEN [a; b]))
  | Some l, None =>
      a ← serialize (key l);
      Ok (Some (Condition (if inclusive l then GE else GT) [a]))
  | None, Some u =>
      b ← serialize (key u);
      Ok (Some (Condition (if inclusive u then LE else LT) [b]))
  | None, None => Ok None
  end.

(** [new DynamoIterator(db, options)] *)
Definition DynamoIterator_new (d : db) (options : iterator_options)
  : result DynamoIterator :=
  let _limit := if bool_decide (limit options ≠ (-1)%Z)
                then Finite (limit options) else Infinity in
  let _reverse := reverse options in
  let _lowerBound := lower_bound options in
  let _upperBound := upper_bound options in
  let Limit := match _limit with Finite n => Some n | Infinity => None end in
  let ScanIndexForward := if _reverse then Some false else None in
  h ← serialize (value_of_hash d);
  let conditions : gmap string condition := {[ hash_name d := Condition EQ [h] ]} in
  c ← range_condition _lowerBound _upperBound;
  let conditions :=
    match c with
    | Some c => <[range_name d := c]> conditions
    | None => conditions
    end in
  Ok (Iterator d _limit _reverse _lowerBound _upperBound
        (QueryParams (table_name d) conditions Limit ScanIndexForward None)
        [] 0).

(** What one call of [next] gives its callback: a record, the end of the
    sequence, the client's error; or an exception thrown inside the client's
    callback; or nothing yet, when the client has not answered. *)
Inductive next_outcome :=
| Yielded (key : value) (text : string)
| Ended
| Errored (err : exn)
| Thrown (e : exn)
| Waiting.

(** [for (let item of Items) this._items.push(this.db._toKV(item))]: the
    buffer after the loop, and the exception that stopped it, if any. *)
Fixpoint push_items (d : db) (buffer : list slot) (its : list item)
  : list slot * option exn :=
  match its with
  | [] => (buffer, None)
  | i :: rest =>
      match _toKV d i with
      | Ok r => push_items d (buffer ++ [Entry r]) rest
      | Throw e => (buffer, Some e)
      end
  end.

Definition with_items (it : DynamoIterator) (buffer : list slot) : DynamoIterator :=
  Iterator (it_db it) (_limit it) (_reverse it) (_lowerBound it) (_upperBound it)
    (_params it) buffer (_cursor it).

Definition with_start_key (it : DynamoIterator) (k : option item) : DynamoIterator :=
  let p := _params it in
  Iterator (it_db it) (_limit it) (_reverse it) (_lowerBound it) (_upperBound it)
    (QueryParams (TableName p) (KeyConditions p) (Limit p) (ScanIndexForward p) k)
    (_items it) (_cursor it).

(** [delete this._items[this._cursor]; this._cursor++] *)
Definition advance (it : DynamoIterator) : DynamoIterator :=
  Iterator (it_db it) (_limit it) (_reverse it) (_lowerBound it) (_upperBound it)
    (_params it) (<[_cursor it := Hole]> (_items it)) (S (_cursor it)).

(** [item === null], for [item = this._items[this._cursor]] *)
Definition is_null (i : option slot) : bool :=
  match i with
  | Some Sentinel => true
  | _ => false
  end.

(** [this._cursor === this._limit] *)
Definition at_limit (it : DynamoIterator) : bool :=
  match _limit it with
  | Finite n => bool_decide (Z.of_nat (_cursor it) = n)
  | Infinity => false
  end.

(** The trace of a run: the outcome, the iterator afterwards, the requests
    sent to [query] and the answers of the client not yet consumed. *)
Record run (O : Type) := Run {
  outcome : O;
  after : DynamoIterator;
  queries : list query_params;
  unread : list (answer query_output)
}.
#[global] Arguments Run {O} _ _ _ _.
#[global] Arguments outcome {O} _.
#[global] Arguments after {O} _.
#[global] Arguments queries {O} _.
#[global] Arguments unread {O} _.

(** [_next(cb)].  [answers] are the successive answers of [this.db._dynamo.query];
    each request consumes one. *)
Fixpoint _next (it : DynamoIterator) (answers : list (answer query_output))
  : run next_outcome :=
  match _items it !! _cursor it with
  | Some (Entry r) =>
      Run (Yielded (kv_key r) (JSON_stringify (VObject (kv_value r))))
          (advance it) [] answers
  | i =>
      if is_null i || at_limit it
      then Run Ended it [] answers
      else
        match answers with
        | [] => Run Waiting it [_params it] []
        | Failed err :: rest => Run (Errored err) it [_params it] rest
        | Answered data :: rest =>
            match push_items (it_db it) (_items it) (Items data) with
            | (buffer, Some e) =>
                Run (Thrown e) (with_items it buffer) [_params it] rest
            | (buffer, None) =>
                let buffer :=
                  match LastEvaluatedKey data with
                  | None => buffer ++ [Sentinel]
                  | Some _ => buffer
                  end in
                let it' := with_start_key (with_items it buffer) (LastEvaluatedKey data) in
                let r := _next it' rest in
                Run (outcome r) (after r) (_params it :: queries r) (unread r)
            end
        end
  end.

(** [n] calls of [next] in a row, each one after the callback of the one
    before. *)
Fixpoint next_n (n : nat) (it : DynamoIterator) (answers : list (answer query_output))
  : run (list next_outcome) :=
  match n with
  | O => Run [] it [] answers
  | S n =>
      let r := _next it answers in
      let rs := next_n n (after r) (unread r) in
      Run (outcome r :: outcome rs) (after rs) (queries r ++ queries rs) (unread rs)
  end.

End DynamoIterator.

(** ** The batched writer: [_batch] *)

Section Batch.
Context `{Host}.

Abbreviation item := (gmap string attr).

(** An element of the array given to [batch]: [{type, key, value}]. *)
Record operation := Operation {
  op_type : value;
  op_key : value;
  op_value : option string
}.

Inductive write_request :=
| DeleteRequest (Key : option item)
| PutRequest (Item : option item).

(** [type === "del"] *)
Definition is_del (type : value) : bool :=
  match type with
  | VString s => String.eqb s "del"
  | _ => false
  end.

Definition to_request (d : db) (o : operation) : result write_request :=
  if is_del (op_type o)
  then DeleteRequest <$> _toItem d (op_key o) None
  else PutRequest <$> _toItem d (op_key o) (op_value o).

(** The [data] of [batchWriteItem]'s callback. *)
Record batch_output := BatchOutput {
  UnprocessedItems : option (gmap string (list write_request))
}.

(** [data && data.UnprocessedItems && data.UnprocessedItems[TableName]],
    as the list that is pushed first ([[]] when the test fails). *)
Definition unprocessed (table : string) (data : option batch_output)
  : list write_request :=
  match data with
  | Some (BatchOutput (Some u)) => default [] (u !! table)
  | _ => []
  end.

(** How a batch ends: [cb()], [cb(err)], or no answer from the client. *)
Inductive batch_outcome := Completed | Aborted (err : exn) | Unanswered.

(** [loop(err, data)].  [ops] is what is left of the pending queue,
    [answers] the successive answers of [batchWriteItem].  The result is
    the outcome and the [RequestItems[TableName]] of every call made. *)
Fixpoint loop (table : string) (ops : list write_request)
    (answers : list (answer (option batch_output)))
    (arg : answer (option batch_output))
  : batch_outcome * list (list write_request) :=
  match arg with
  | Failed err => (Aborted err, [])
  | Answered data =>
      let reqs := unprocessed table data in
      let n := 25 - length reqs in
      let reqs := reqs ++ take n ops in
      let ops := drop n ops in
      match reqs with
      | [] => (Completed, [])
      | _ =>
          match answers with
          | [] => (Unanswered, [reqs])
          | a :: rest =>
              let '(o, calls) := loop table ops rest a in
              (o, reqs :: calls)
          end
      end
  end.

(** [_batch(array, options, cb)] *)
Definition _batch (d : db) (array : list operation)
    (answers : list (answer (option batch_output)))
  : result (batch_outcome * list (list write_request)) :=
  ops ← mapM (to_request d) array;
  Ok (loop (table_name d) ops answers (Answered None)).

End Batch.

(** ** Vocabulary of the properties *)

Section Vocabulary.
Context `{Numbers}.

Abbreviation item := (gmap string attr).

(** A value that [serialize] accepts: no value of an unhandled type in it. *)
Fixpoint supported (v : value) : bool :=
  match v with
  | VOther _ => false
  | VArray l => forallb supported l
  | VObject m | VInstance m => map_fold (fun _ x acc => supported x && acc) true m
  | _ => true
  end.

(** What decoding gives back for an encoded value: absent values and empty
    strings have become [null], numbers have gone through their text. *)
Fixpoint collapse (v : value) : value :=
  match v with
  | VUndefined | VNull => VNull
  | VString s => if String.eqb s "" then VNull else VString s
  | VNumber n => VNumber (parseFloat (Number_toString n))
  | VArray l => VArray (collapse <$> l)
  | VObject m | VInstance m => VObject (collapse <$> m)
  | VBoolean _ | VBuffer _ | VOther _ => v
  end.

(** The attribute value of a supported value. *)
Definition encoded (v : value) : attr :=
  match serialize v with
  | Ok a => a
  | Throw _ => A_NULL true
  end.

(** A Native Value: [null], a string, a number, a boolean, a buffer, a list
    of Native Values, or a map from strings to Native Values. *)
Fixpoint native_value (v : value) : Prop :=
  match v with
  | VUndefined | VInstance _ | VOther _ => False
  | VNull | VString _ | VNumber _ | VBoolean _ | VBuffer _ => True
  | VArray l => foldr (fun x P => native_value x ∧ P) True l
  | VObject m => map_fold (fun _ x P => native_value x ∧ P) True m
  end.

(** A Native Value that the codec does not alter: it has no empty string at
    any depth, and each of its numbers is read back from its own text. *)
Fixpoint lossless (v : value) : Prop :=
  match v with
  | VUndefined | VInstance _ | VOther _ => False
  | VNull | VBoolean _ | VBuffer _ => True
  | VString s => s ≠ ""
  | VNumber n => parseFloat (Number_toString n) = n
  | VArray l => foldr (fun x P => lossless x ∧ P) True l
  | VObject m => map_fold (fun _ x P => lossless x ∧ P) True m
  end.

(** The number of constructors of a value. *)
Fixpoint size (v : value) : nat :=
  match v with
  | VArray l => S (foldr (fun x n => size x + n) 0 l)
  | VObject m | VInstance m => S (map_fold (fun _ x n => size x + n) 0 m)
  | _ => 1
  end.

(** The two property names through which the code leaves the own properties
    of an object: [serialize] reads [value.constructor], which an own
    property of that name shadows, and the assignment [acc[key] = ...] with
    the key [__proto__] sets the prototype of [acc] and adds no property. *)
Definition reserved : list string := ["constructor"; "__proto__"].

(** A value for which the map of the own properties tells what the code
    does: no property named [constructor] or [__proto__] at any depth, and
    no value of another type whose constructor bears a handled name. *)
Fixpoint plain (v : value) : bool :=
  match v with
  | VOther c => bool_decide (c ∉ handled)
  | VArray l => forallb plain l
  | VObject m | VInstance m =>
      map_fold (fun k x acc => bool_decide (k ∉ reserved) && plain x && acc) true m
  | _ => true
  end.

(** The same for an attribute value: no key named [constructor] or
    [__proto__] in a map, at any depth. *)
Fixpoint plain_attr (a : attr) : bool :=
  match a with
  | A_L l => forallb plain_attr l
  | A_M m =>
      map_fold (fun k x acc => bool_decide (k ∉ reserved) && plain_attr x && acc) true m
  | _ => true
  end.


(** A list cut into pages of [p] elements, the last one possibly shorter. *)
Fixpoint chunks_go {A} (fuel p : nat) (l : list A) : list (list A) :=
  match fuel, l with
  | S fuel, _ :: _ => take p l :: chunks_go fuel p (drop p l)
  | _, _ => []
  end.

Definition chunks {A} (p : nat) (l : list A) : list (list A) :=
  chunks_go (length l) p l.

(** A client that answers the successive queries page by page: every page
    but the last comes with a continuation token. *)
Fixpoint paginate (token : list item -> item) (pages : list (list item))
  : list (answer query_output) :=
  match pages with
  | [] => []
  | [p] => [Answered (QueryOutput p None)]
  | p :: rest => Answered (QueryOutput p (Some (token p))) :: paginate token rest
  end.

(** The callback arguments for a record: [(null, key, JSON.stringify(value))]. *)
Definition yield `{!Host} (r : kv) : next_outcome :=
  Yielded (kv_key r) (JSON_stringify (VObject (kv_value r))).

End Vocabulary.

(** ** Vocabulary of the adapter's properties *)

Section AdapterVocabulary.
Context `{Host}.

(** The attribute value of the adapter's fixed hash value. *)
Definition hash_attr (d : db) : attr := encoded (value_of_hash d).

(** The item of a key alone: the hash attribute and the range attribute. *)
Definition key_item (d : db) (a : attr) : gmap string attr :=
  <[range_name d := a]> {[ hash_name d := hash_attr d ]}.

(** [this._toKV(this._toItem({key, value}))] *)
Definition toKV_of_toItem (d : db) (key : value) (text : option string) : result kv :=
  it ← _toItem d key text;
  match it with
  | Some it => _toKV d it
  | None => Throw (TypeError "Cannot convert undefined or null to object")
  end.


(** A schema whose attribute names are not [constructor] or [__proto__]:
    [item[name] = ...] then adds the property [name] to a plain item and
    leaves it plain. *)
Definition plain_schema (d : db) : Prop :=
  (hash_name d ∉ reserved) ∧ (range_name d ∉ reserved).

(** The property names that every object inherits from [Object.prototype]:
    reading one of them on an object that has no own property of that name
    does not give [undefined]. *)
Definition inherited : list string :=
  ["constructor"; "__proto__"; "hasOwnProperty"; "isPrototypeOf";
   "propertyIsEnumerable"; "toLocaleString"; "toString"; "valueOf";
   "__defineGetter__"; "__defineSetter__"; "__lookupGetter__"; "__lookupSetter__"].

(** The item of a record whose value is the object [m]: the encoded
    properties of [m], with the hash attribute and the range attribute. *)
Definition item_of (d : db) (key : value) (m : gmap string value) : gmap string attr :=
  encoded <$> <[range_name d := key]> (<[hash_name d := value_of_hash d]> m).

End AdapterVocabulary.

Section BatchVocabulary.
Context `{Host}.

(** The entries that an answer of [batchWriteItem] reports as unprocessed. *)
Definition answer_unprocessed (table : string) (a : answer (option batch_output))
  : list write_request :=
  match a with
  | Answered data => unprocessed table data
  | Failed _ => []
  end.

(** The rounds of a batch, from the answers of the client alone.  Round [k]
    starts with the entries that the answer to call [k - 1] reported as
    unprocessed (none for the first round) ... *)
Definition carried_in (reports : list (list write_request)) (k : nat)
  : list write_request :=
  default [] (reports !! k).

(** ... it can take [25] entries less these from the pending queue ... *)
Definition pulled_in (reports : list (list write_request)) (k : nat) : nat :=
  sum_list ((fun c => 25 - length c) <$> take k reports).

(** What each round finds reported: nothing at first, then what each answer
    reports. *)
Definition reports (table : string) (answers : list (answer (option batch_output)))
  : list (list write_request) :=
  [] :: (answer_unprocessed table <$> answers).

Definition carried (table : string) (answers : list (answer (option batch_output)))
    (k : nat) : list write_request :=
  carried_in (reports table answers) k.

(** ... and the pending queue of round [k] is what the rounds before have
    left of the requests. *)
Definition pending (table : string) (answers : list (answer (option batch_output)))
    (ops : list write_request) (k : nat) : list write_request :=
  drop (pulled_in (reports table answers) k) ops.

(** The request that the claim gives for an entry whose value is the JSON
    text of [m]: a delete request with the item of the key alone when the
    type is the string [del], a put request with the whole item otherwise. *)
Definition requested (d : db) (o : operation) (m : gmap string value)
    (req : write_request) : Prop :=
  (op_type o = VString "del"
   ∧ req = DeleteRequest (Some (key_item d (encoded (op_key o)))))
  ∨ (op_type o ≠ VString "del"
     ∧ req = PutRequest (Some (item_of d (op_key o) m))).

(** An entry that the claim speaks of: a key that [serialize] accepts and,
    unless the entry is a delete, a value that is the JSON text of the plain
    object [m], which [serialize] accepts. *)
Definition entry_of (o : operation) (m : gmap string value) : Prop :=
  supported (op_key o) = true ∧ plain (op_key o) = true
  ∧ (op_type o ≠ VString "del" ->
     ∃ text, op_value o = Some text ∧ text ≠ "" ∧ JSON_parse text = Ok (VObject m)
       ∧ supported (VObject m) = true ∧ plain (VObject m) = true).

End BatchVocabulary.

Section IteratorVocabulary.
Context `{Host}.

(** The buffer of an iterator over [d], of limit [lim], that has returned
    [c] records: [c] holes, the records not yet returned, and the sentinel
    once the client has answered without a continuation token. *)
Definition buffered (d : db) (lim : limit_t) (it : DynamoIterator) (c : nat)
    (pending : list kv) (sealed : bool) : Prop :=
  it_db it = d ∧ _limit it = lim ∧ _cursor it = c
  ∧ _items it = replicate c Hole ++ (Entry <$> pending)
                ++ (if sealed then [Sentinel] else []).

(** The record of an item that the mapper decodes. *)
Definition decoded (d : db) (i : gmap string attr) : kv :=
  match _toKV d i with
  | Ok r => r
  | Throw _ => KV VUndefined ∅
  end.

End IteratorVocabulary.

(** A digit survives [char_of] then [digit_of], and is not the padding. *)
Definition digit_roundtrip (i : N) : bool :=
  match Base64.digit_of (Base64.char_of i) with
  | Some j => N.eqb i j && negb (Ascii.eqb (Base64.char_of i) Base64.pad)
  | None => false
  end.

(** ** A small runtime, to run the definitions on examples

    Numbers are the integers and NaN, printed in decimal.  [JSON.parse]
    knows six texts and rejects the others; [JSON.stringify] does not
    escape; [new Buffer] takes a string, a buffer or a size. *)

Inductive num := Int (z : Z) | NaN.

#[global] Instance int_numbers : Numbers := {|
  number := num;
  Number_toString n :=
    match n with
    | Int z => NilZero.string_of_int (Z.to_int z)
    | NaN => "NaN"
    end;
  parseFloat s :=
    match NilZero.int_of_string s with
    | Some i => Int (Z.of_int i)
    | None => NaN
    end;
  Number_toBoolean n :=
    match n with
    | Int z => negb (Z.eqb z 0)
    | NaN => false
    end
|}.

Definition quote (s : string) : string :=
  String (ascii_of_nat 34) (s +:+ String (ascii_of_nat 34) "").

Definition join (l : list string) : string :=
  match l with
  | [] => ""
  | s :: l => foldl (fun acc t => acc +:+ "," +:+ t) s l
  end.

Fixpoint stringify (v : value) : string :=
  match v with
  | VUndefined | VNull | VOther _ | VNumber NaN => "null"
  | VNumber n => Number_toString n
  | VBoolean b => if b then "true" else "false"
  | VString s => quote s
  | VBuffer bs =>
      "{" +:+ quote "type" +:+ ":" +:+ quote "Buffer" +:+ "," +:+ quote "data" +:+ ":["
        +:+ join ((fun b => Number_toString (Int (Z.of_N (Byte.to_N b)))) <$> bs) +:+ "]}"
  | VArray l => "[" +:+ join (stringify <$> l) +:+ "]"
  | VObject m | VInstance m =>
      "{" +:+ join (map_fold (fun k x acc =>
                      match x with
                      | VUndefined | VOther _ => acc
                      | _ => acc ++ [quote k +:+ ":" +:+ stringify x]
                      end) [] m) +:+ "}"
  end.

(** The text of [{a: true}]. *)
Definition text_a : string := "{" +:+ quote "a" +:+ ":true}".

#[global] Instance small_host : Host := {|
  JSON_parse text :=
    if String.eqb text "{}" then Ok (VObject ∅)
    else if String.eqb text text_a then Ok (VObject {[ "a" := VBoolean true ]})
    else if String.eqb text "[]" then Ok (VArray [])
    else if String.eqb text "null" then Ok VNull
    else if String.eqb text "true" then Ok (VBoolean true)
    else if String.eqb text "false" then Ok (VBoolean false)
    else Throw (Exn "SyntaxError" "Unexpected token");
  JSON_stringify := stringify;
  new_Buffer v :=
    match v with
    | VString s => Ok (VBuffer (list_byte_of_string s))
    | VBuffer bs => Ok (VBuffer bs)
    | VNumber (Int z) => Ok (VBuffer (replicate (Z.to_nat z) x00%byte))
    | _ => Throw (TypeError "must start with number, buffer, array or string")
    end
|}.

(** The table of the examples: hash attribute [h] with value [H], range
    attribute [r]. *)
Definition db0 : db := DB "t" "h" (Some "H") "r".

(** An item of the examples: the hash attribute and the range attribute. *)
Definition row (k : string) : gmap string attr :=
  <["r" := A_S k]> {[ "h" := A_S "H" ]}.

(** The continuation token of a page: its last item. *)
Definition last_key (page : list (gmap string attr)) : gmap string attr :=
  default ∅ (last page).

Definition put0 (k : string) : write_request := PutRequest (Some (row k)).

(** ** The constructor of the adapter and [_open] *)

Section Open.
Context `{Host}.

(** [s.split("/")]: the first part, and the parts after it. *)
Fixpoint split_slash (s : string) : string * list string :=
  match s with
  | EmptyString => (EmptyString, [])
  | String c s =>
      let '(p, ps) := split_slash s in
      if Ascii.eqb c "/" then (EmptyString, p :: ps) else (String c p, ps)
  end.

(** [this._table.name], [this._schema.hash.value], [this._schema.hash.name]
    and [this._schema.range.name].  A name is absent until [_open] sets it. *)
Record adapter := Adapter {
  _table : string;
  schema_hash_value : option string;
  schema_hash_name : option string;
  schema_range_name : option string
}.

(** [new DynamoDOWN(dynamo, location)], with
    [const [table, hash] = location.split("/")]. *)
Definition DynamoDOWN_new (location : string) : adapter :=
  let '(table, rest) := split_slash location in
  Adapter table (head rest) None None.

(** An element of [data.Table.KeySchema]. *)
Record key_schema_element := KeySchemaElement {
  KeyType : string;
  AttributeName : string
}.

(** [toLowerCase], on the letters A to Z.  The other bytes are left as they
    are: no letter outside of these has a lower case that occurs in [hash]
    or [range], which is all that [_open] does with the result. *)
Definition lower (c : ascii) : ascii :=
  let n := nat_of_ascii c in
  if (65 <=? n) && (n <=? 90) then ascii_of_nat (n + 32) else c.

Fixpoint toLowerCase (s : string) : string :=
  match s with
  | EmptyString => EmptyString
  | String c s => String (lower c) (toLowerCase s)
  end.

(** [this._schema[type].name = name].  The schema has the properties [hash]
    and [range]; for another [type] the target is [undefined] and the
    assignment throws.  ([constructor] and [__proto__], which the schema
    inherits from [Object.prototype], are outside the model, as for every
    other object.) *)
Definition set_name (a : adapter) (type name : string) : result adapter :=
  if String.eqb type "hash"
  then Ok (Adapter (_table a) (schema_hash_value a) (Some name) (schema_range_name a))
  else if String.eqb type "range"
  then Ok (Adapter (_table a) (schema_hash_value a) (schema_hash_name a) (Some name))
  else Throw (TypeError "Cannot set property 'name' of undefined").

(** [for (let {KeyType, AttributeName} of data.Table.KeySchema) ...]: the
    adapter after the loop, and the exception that ended it, if any. *)
Fixpoint set_names (a : adapter) (KeySchema : list key_schema_element)
  : adapter * result unit :=
  match KeySchema with
  | [] => (a, Ok tt)
  | e :: KeySchema =>
      match set_name a (toLowerCase (KeyType e)) (AttributeName e) with
      | Ok a => set_names a KeySchema
      | Throw ex => (a, Throw ex)
      end
  end.

(** [_open(options, cb)].  [describeTable] takes the [TableName] of the
    request and answers with an error or with [data.Table.KeySchema].  The
    result is the adapter afterwards and what [cb] receives ([None] for
    [cb()]), or the exception thrown inside the client's callback. *)
Definition _open (a : adapter)
    (describeTable : string -> answer (list key_schema_element))
  : adapter * result (option exn) :=
  match describeTable (_table a) with
  | Failed err => (a, Ok (Some err))
  | Answered KeySchema =>
      let '(a, r) := set_names a KeySchema in
      (a, r ≫= fun _ => Ok None)
  end.

(** The table and the schema as the methods read them.  A name that was
    never set is [undefined]; as a property name ([item[undefined] = ...],
    [KeyConditions[undefined] = ...]) it is the string [undefined]. *)
Definition schema_of (a : adapter) : db :=
  DB (_table a)
     (default "undefined" (schema_hash_name a))
     (schema_hash_value a)
     (default "undefined" (schema_range_name a)).


End Open.

Section OpenVocabulary.
Context `{Host}.

(** A text without a slash. *)
Fixpoint slash_free (s : string) : bool :=
  match s with
  | EmptyString => true
  | String c s => negb (Ascii.eqb c "/") && slash_free s
  end.

(** [[p, ...ps].join("/")] *)
Fixpoint join_slash (p : string) (ps : list string) : string :=
  match ps with
  | [] => p
  | q :: ps => p +:+ "/" +:+ join_slash q ps
  end.

(** The attribute names that a key schema gives for a key type, in lower
    case: [hash] or [range]. *)
Definition names_of (type : string) (KeySchema : list key_schema_element)
  : list string :=
  AttributeName <$> filter (fun e => toLowerCase (KeyType e) = type) KeySchema.

End OpenVocabulary.

(** ** Vocabulary of the further properties *)

Section CodecVocabulary.
Context `{Numbers}.

(** The number of constructors of an attribute value. *)
Fixpoint attr_size (a : attr) : nat :=
  match a with
  | A_L l => S (foldr (fun x n => attr_size x + n) 0 l)
  | A_M m => S (map_fold (fun _ x n => attr_size x + n) 0 m)
  | _ => 1
  end.

(** An attribute value with no tag outside the seven, at any depth. *)
Fixpoint known (a : attr) : bool :=
  match a with
  | A_unknown _ => false
  | A_L l => forallb known l
  | A_M m => map_fold (fun _ x acc => known x && acc) true m
  | _ => true
  end.

(** An attribute value in the form [serialize] writes: [{NULL: true}], no
    empty [S], a [B] that is the base64 text of its bytes, an [N] that is
    the text of its number, and so on at every depth. *)
Fixpoint canonical (a : attr) : Prop :=
  match a with
  | A_NULL b => b = true
  | A_S s => s ≠ ""
  | A_B s => Base64.encode (Base64.decode s) = s
  | A_BOOL _ => True
  | A_N s => Number_toString (parseFloat s) = s
  | A_L l => foldr (fun x P => canonical x ∧ P) True l
  | A_M m => map_fold (fun _ x P => canonical x ∧ P) True m
  | A_unknown _ => False
  end.

(** The value of an attribute value that [parse] reads. *)
Definition parsed (a : attr) : value :=
  match parse a with
  | Ok v => v
  | Throw _ => VNull
  end.

End CodecVocabulary.

Section IteratorRequests.
Context `{Host}.

(** The request [p] with the start key [k]. *)
Definition start_at (p : query_params) (k : option (gmap string attr)) : query_params :=
  QueryParams (TableName p) (KeyConditions p) (Limit p) (ScanIndexForward p) k.

(** [LastEvaluatedKey] of an answer. *)
Definition continuation (a : answer query_output) : option (gmap string attr) :=
  match a with
  | Answered data => LastEvaluatedKey data
  | Failed _ => None
  end.

(** An answer that is not an error and whose items the mapper decodes. *)
Definition well_answered (d : db) (a : answer query_output) : Prop :=
  match a with
  | Answered data => Forall (fun i => _toKV d i = Ok (decoded d i)) (Items data)
  | Failed _ => False
  end.

End IteratorRequests.

Section BatchAnswers.
Context `{Host}.


End BatchAnswers.

Section BatchStops.
Context `{Host}.


End BatchStops.

(** * Properties *)

(** ** Base64 *)

Module Base64Facts.
Import Base64.

Lemma digit_roundtrip_all :
  forallb digit_roundtrip (N.of_nat <$> seq 0 64) = true.
Proof. vm_compute. reflexivity. Qed.

Lemma digit_of_char_of (i : N) :
  (i < 64)%N -> digit_of (char_of i) = Some i ∧ Ascii.eqb (char_of i) pad = false.
Proof.
  intros Hi.
  pose proof digit_roundtrip_all as Hall.
  rewrite forallb_forall in Hall.
  specialize (Hall i).
  assert (Hin : In i (N.of_nat <$> seq 0 64)).
  { apply list_elem_of_In, list_elem_of_fmap. exists (N.to_nat i). split; [lia|].
    apply list_elem_of_In, in_seq. lia. }
  specialize (Hall Hin). unfold digit_roundtrip in Hall.
  destruct (digit_of (char_of i)) as [j|]; [|discriminate].
  apply andb_true_iff in Hall as [Heq Hpad].
  apply N.eqb_eq in Heq. subst j.
  split; [reflexivity|]. by apply negb_true_iff.
Qed.

Lemma digits_char_of (i : N) (s : string) :
  (i < 64)%N -> digits (String (char_of i) s) = i :: digits s.
Proof.
  intros Hi. destruct (digit_of_char_of i Hi) as [Hd Hp].
  simpl. by rewrite Hp, Hd.
Qed.

Lemma digits_pad (s : string) : digits (String pad s) = [].
Proof. reflexivity. Qed.

Lemma byte_of_to_N (b : byte) (n : N) : n = Byte.to_N b -> byte_of n = [b].
Proof. intros ->. unfold byte_of. by rewrite Byte.of_to_N. Qed.

Ltac divmod := Z.to_euclidean_division_equations; lia.

Lemma list_ind3 {A} (P : list A -> Prop) :
  P [] -> (∀ a, P [a]) -> (∀ a b, P [a; b]) ->
  (∀ a b c l, P l -> P (a :: b :: c :: l)) ->
  ∀ l, P l.
Proof.
  intros H0 H1 H2 H3.
  assert (Hall : ∀ l, P l ∧ (∀ a, P (a :: l)) ∧ (∀ a b, P (a :: b :: l))).
  { induction l as [|c l (IH0 & IH1 & IH2)]; [by auto|].
    split; [apply IH1|]. split; [intros a; apply IH2|].
    intros a b. by apply H3. }
  intros l. apply Hall.
Qed.

Lemma byte_lt (b : byte) : (Byte.to_N b < 256)%N.
Proof. pose proof (Byte.to_N_bounded b). lia. Qed.

Lemma decode_encode (bs : list byte) : decode (encode bs) = bs.
Proof.
  unfold decode.
  induction bs as [|b1|b1 b2|b1 b2 b3 bs IH] using list_ind3.
  - reflexivity.
  - pose proof (byte_lt b1).
    cbn [encode].
    rewrite !digits_char_of, digits_pad by (zify; divmod).
    cbn [bytes_of_digits].
    apply byte_of_to_N. zify; divmod.
  - pose proof (byte_lt b1). pose proof (byte_lt b2).
    cbn [encode].
    rewrite !digits_char_of, digits_pad by (zify; divmod).
    cbn [bytes_of_digits].
    rewrite (byte_of_to_N b1), (byte_of_to_N b2) by (zify; divmod).
    reflexivity.
  - pose proof (byte_lt b1). pose proof (byte_lt b2). pose proof (byte_lt b3).
    cbn [encode].
    rewrite !digits_char_of by (zify; divmod).
    cbn [bytes_of_digits].
    rewrite (byte_of_to_N b1), (byte_of_to_N b2), (byte_of_to_N b3)
      by (zify; divmod).
    rewrite IH. reflexivity.
Qed.

End Base64Facts.

(** ** Results of traversals *)

Lemma map_sequence_spec {A} (m : gmap string (result A)) :
  match map_sequence m with
  | Ok m' => m = Ok <$> m'
  | Throw e => ∃ k, m !! k = Some (Throw e)
  end.
Proof.
  unfold map_sequence.
  apply (map_fold_weak_ind (fun r m =>
    match r with
    | Ok m' => m = Ok <$> m'
    | Throw e => ∃ k, m !! k = Some (Throw e)
    end)).
  - by rewrite fmap_empty.
  - intros k x m' r Hk IH. destruct r as [acc|e]; simpl.
    + destruct x as [a|e]; simpl.
      * by rewrite fmap_insert, IH.
      * exists k. by rewrite lookup_insert_eq.
    + destruct IH as [j Hj]. exists j.
      rewrite lookup_insert_ne; [done|]. intros ->. congruence.
Qed.

Lemma map_sequence_Ok {A} (m : gmap string A) : map_sequence (Ok <$> m) = Ok m.
Proof.
  pose proof (map_sequence_spec (Ok <$> m)) as Hspec.
  destruct (map_sequence (Ok <$> m)) as [m'|e].
  - f_equal. apply map_eq. intros k.
    apply (f_equal (fun x => x !! k)) in Hspec.
    rewrite !lookup_fmap in Hspec.
    destruct (m !! k), (m' !! k); simpl in Hspec; congruence.
  - destruct Hspec as [k Hk]. rewrite lookup_fmap in Hk.
    destruct (m !! k); discriminate.
Qed.

Section Traversals.
Context {A B C : Type}.

Lemma map_sequence_fmap (f : B -> result C) (g : A -> B) (h : A -> C)
    (m : gmap string A) :
  map_Forall (fun _ x => f (g x) = Ok (h x)) m ->
  map_sequence (f <$> (g <$> m)) = Ok (h <$> m).
Proof.
  intros Hall. rewrite <- map_sequence_Ok. f_equal.
  apply map_eq. intros k. rewrite !lookup_fmap.
  destruct (m !! k) as [x|] eqn:Hk; simpl; [|done].
  f_equal. by apply (Hall k).
Qed.

Lemma mapM_fmap (f : B -> result C) (g : A -> B) (h : A -> C) (l : list A) :
  Forall (fun x => f (g x) = Ok (h x)) l ->
  mapM f (g <$> l) = Ok (h <$> l).
Proof.
  induction 1 as [|x l Hx _ IH]; [done|].
  cbn. rewrite Hx. cbn. rewrite IH. done.
Qed.

End Traversals.

Lemma mapM_Ok {A B} (f : A -> result B) (g : A -> B) (l : list A) :
  Forall (fun x => f x = Ok (g x)) l -> mapM f l = Ok (g <$> l).
Proof.
  intros Hall. rewrite <- (list_fmap_id l) at 1. by apply mapM_fmap.
Qed.

Lemma map_sequence_fmap_Ok {A B} (f : A -> result B) (g : A -> B)
    (m : gmap string A) :
  map_Forall (fun _ x => f x = Ok (g x)) m ->
  map_sequence (f <$> m) = Ok (g <$> m).
Proof.
  intros Hall. rewrite <- (map_fmap_id m) at 1. by apply map_sequence_fmap.
Qed.

Lemma mapM_Ok_inv {A B} (f : A -> result B) (g : A -> B) (l : list A) :
  (∀ x y, f x = Ok y -> g x = y) ->
  ∀ l', mapM f l = Ok l' -> Forall (fun x => f x = Ok (g x)) l ∧ l' = g <$> l.
Proof.
  intros Hg. induction l as [|x l IH]; intros l' Hl'.
  - cbn in Hl'. injection Hl' as <-. by split.
  - cbn in Hl'. destruct (f x) as [y|e] eqn:Hx; [|discriminate]. cbn in Hl'.
    destruct (mapM f l) as [ys|e]; [|discriminate]. cbn in Hl'.
    injection Hl' as <-. destruct (IH ys eq_refl) as [Hall ->].
    rewrite <- (Hg x y Hx). split; [|done].
    constructor; [by rewrite (Hg x y Hx)|done].
Qed.

Lemma map_sequence_Ok_inv {A B} (f : A -> result B) (g : A -> B)
    (m : gmap string A) (m' : gmap string B) :
  (∀ x y, f x = Ok y -> g x = y) ->
  map_sequence (f <$> m) = Ok m' ->
  map_Forall (fun _ x => f x = Ok (g x)) m ∧ m' = g <$> m.
Proof.
  intros Hg Hm'. pose proof (map_sequence_spec (f <$> m)) as Hspec.
  rewrite Hm' in Hspec.
  assert (Hall : map_Forall (fun _ x => f x = Ok (g x)) m).
  { intros k x Hk. apply (f_equal (fun n => n !! k)) in Hspec.
    rewrite !lookup_fmap, Hk in Hspec. cbn in Hspec.
    destruct (m' !! k) as [y|]; [|discriminate]. cbn in Hspec.
    injection Hspec as Hx. by rewrite Hx, (Hg x y Hx). }
  split; [done|].
  rewrite (map_sequence_fmap_Ok f g m Hall) in Hm'. by injection Hm' as <-.
Qed.

Lemma mapM_Throw_inv {A B} (f : A -> result B) (l : list A) (e : exn) :
  mapM f l = Throw e -> ∃ x, x ∈ l ∧ f x = Throw e.
Proof.
  induction l as [|x l IH]; [discriminate|].
  cbn. destruct (f x) as [y|e'] eqn:Hx; cbn.
  - destruct (mapM f l) as [ys|e'']; cbn; [discriminate|].
    intros [= ->]. destruct (IH eq_refl) as (z & Hz & Hfz).
    exists z. split; [by right|done].
  - intros [= ->]. exists x. split; [by left|done].
Qed.

Lemma map_sequence_Throw_inv {A B} (f : A -> result B) (m : gmap string A) (e : exn) :
  map_sequence (f <$> m) = Throw e -> ∃ k x, m !! k = Some x ∧ f x = Throw e.
Proof.
  intros Hm. pose proof (map_sequence_spec (f <$> m)) as Hspec.
  rewrite Hm in Hspec. destruct Hspec as [k Hk].
  rewrite lookup_fmap in Hk. destruct (m !! k) as [x|] eqn:Hx; [|discriminate].
  exists k, x. split; [done|]. by injection Hk.
Qed.

Lemma list_fmap_fixed {A} (f : A -> A) (l : list A) :
  f <$> l = l -> Forall (fun x => f x = x) l.
Proof.
  induction l as [|x l IH]; [constructor|].
  rewrite fmap_cons. intros [= Hx Hl]. constructor; [done|by apply IH].
Qed.

Lemma map_fmap_fixed {A} (f : A -> A) (m : gmap string A) :
  f <$> m = m -> map_Forall (fun _ x => f x = x) m.
Proof.
  intros Hm k x Hk. apply (f_equal (fun n => n !! k)) in Hm.
  rewrite lookup_fmap, Hk in Hm. by injection Hm.
Qed.

(** ** The codec *)

Section CodecFacts.
Context `{Numbers}.

Lemma foldr_and_Forall {A} (P : A -> Prop) (l : list A) :
  foldr (fun x Q => P x ∧ Q) True l ↔ Forall P l.
Proof.
  induction l as [|x l IH]; simpl.
  - split; [constructor|done].
  - rewrite Forall_cons, IH. done.
Qed.

Lemma map_fold_and_Forall {A} (P : A -> Prop) (m : gmap string A) :
  map_fold (fun _ x Q => P x ∧ Q) True m ↔ map_Forall (fun _ x => P x) m.
Proof.
  apply (map_fold_weak_ind (fun Q m => Q ↔ map_Forall (fun _ x => P x) m)).
  - split; [intros _; apply map_Forall_empty|done].
  - intros k x m' Q Hk IH. rewrite map_Forall_insert by done. by rewrite IH.
Qed.

Lemma map_fold_andb_Forall {A} (p : A -> bool) (m : gmap string A) :
  map_fold (fun _ x acc => p x && acc) true m = true
  ↔ map_Forall (fun _ x => p x = true) m.
Proof.
  apply (map_fold_weak_ind (fun b m => b = true ↔ map_Forall (fun _ x => p x = true) m)).
  - split; [intros _; apply map_Forall_empty|done].
  - intros k x m' b Hk IH. rewrite map_Forall_insert by done.
    rewrite andb_true_iff, IH. done.
Qed.

Lemma supported_array (l : list value) :
  supported (VArray l) = true ↔ Forall (fun x => supported x = true) l.
Proof. simpl. rewrite forallb_forall, Forall_forall. by setoid_rewrite list_elem_of_In. Qed.

Lemma supported_object (m : gmap string value) :
  supported (VObject m) = true ↔ map_Forall (fun _ x => supported x = true) m.
Proof. apply map_fold_andb_Forall. Qed.

Lemma lossless_array (l : list value) : lossless (VArray l) ↔ Forall lossless l.
Proof. apply foldr_and_Forall. Qed.

Lemma lossless_object (m : gmap string value) :
  lossless (VObject m) ↔ map_Forall (fun _ x => lossless x) m.
Proof. apply (map_fold_and_Forall lossless). Qed.

Lemma size_element (l : list value) (x : value) :
  x ∈ l -> size x < size (VArray l).
Proof.
  simpl. induction 1 as [x l|x y l _ IH]; simpl; lia.
Qed.

Lemma size_entry (m : gmap string value) (k : string) (x : value) :
  m !! k = Some x -> size x < size (VObject m).
Proof.
  simpl. revert k x.
  apply (map_fold_weak_ind (fun n m => ∀ k x, m !! k = Some x -> size x < S n)).
  - intros k x. by rewrite lookup_empty.
  - intros j y m' n Hj IH k x. rewrite lookup_insert.
    case_decide as Hjk.
    + intros [= ->]. lia.
    + intros Hk. specialize (IH k x Hk). lia.
Qed.







End CodecFacts.

Section CodecTheorems.
Context `{Numbers}.

Lemma serialize_array (l : list value) :
  serialize (VArray l) = A_L <$> mapM serialize l.
Proof. reflexivity. Qed.

Lemma serialize_object (m : gmap string value) :
  serialize (VObject m) = A_M <$> map_sequence (serialize <$> m).
Proof. reflexivity. Qed.

Lemma parse_list (l : list attr) : parse (A_L l) = VArray <$> mapM parse l.
Proof. reflexivity. Qed.

Lemma parse_map (m : gmap string attr) :
  parse (A_M m) = VObject <$> map_sequence (parse <$> m).
Proof. reflexivity. Qed.

Lemma parse_serialize_bounded (n : nat) (v : value) :
  size v < n -> supported v = true ->
  serialize v = Ok (encoded v) ∧ parse (encoded v) = Ok (collapse v).
Proof.
  revert v. induction n as [|n IH]; [lia|].
  intros v Hsize Hsup.
  assert (Hobject : ∀ m, size (VObject m) < S n -> supported (VObject m) = true ->
            serialize (VObject m) = Ok (encoded (VObject m))
            ∧ parse (encoded (VObject m)) = Ok (collapse (VObject m))).
  { clear v Hsize Hsup. intros m Hsize Hsup.
    assert (Hall : map_Forall (fun _ x => serialize x = Ok (encoded x)
                     ∧ parse (encoded x) = Ok (collapse x)) m).
    { apply supported_object in Hsup. intros k x Hk.
      apply IH; [|by apply (Hsup k)].
      pose proof (size_entry m k x Hk). lia. }
    assert (Hser : serialize (VObject m) = Ok (A_M (encoded <$> m))).
    { rewrite serialize_object, (map_sequence_fmap_Ok serialize encoded); [done|].
      intros k x Hk. by destruct (Hall k x Hk). }
    unfold encoded at 1 2. rewrite Hser. split; [done|].
    rewrite parse_map, (map_sequence_fmap parse encoded collapse); [done|].
    intros k x Hk. by destruct (Hall k x Hk). }
  destruct v as [| |s|x|b|bs|l|m|m|c]; try done.
  - by destruct s.
  - split; [done|]. cbn. by rewrite Base64Facts.decode_encode.
  - assert (Hall : Forall (fun x => serialize x = Ok (encoded x)
                     ∧ parse (encoded x) = Ok (collapse x)) l).
    { apply supported_array in Hsup. rewrite Forall_forall in Hsup |- *.
      intros x Hx. apply IH; [|by apply Hsup].
      pose proof (size_element l x Hx). lia. }
    assert (Hser : serialize (VArray l) = Ok (A_L (encoded <$> l))).
    { rewrite serialize_array, (mapM_Ok serialize encoded); [done|].
      eapply Forall_impl; [exact Hall|]. by intros x [? _]. }
    unfold encoded at 1 2. rewrite Hser. split; [done|].
    rewrite parse_list, (mapM_fmap parse encoded collapse); [done|].
    eapply Forall_impl; [exact Hall|]. by intros x [_ ?].
  - exact (Hobject m Hsize Hsup).
  - exact (Hobject m Hsize Hsup).
Qed.

(** Encoding succeeds on every supported value, and decoding the result gives
    the collapsed value. *)
Lemma parse_serialize_collapse (v : value) :
  supported v = true ->
  ∃ a, serialize v = Ok a ∧ parse a = Ok (collapse v).
Proof.
  intros Hsup. exists (encoded v).
  by apply (parse_serialize_bounded (S (size v))); [lia|].
Qed.

Lemma lossless_bounded (n : nat) (v : value) :
  size v < n -> lossless v -> supported v = true ∧ collapse v = v.
Proof.
  revert v. induction n as [|n IH]; [lia|].
  intros v Hsize Hv.
  destruct v as [| |s|x|b|bs|l|m|m|c]; try done.
  - split; [done|]. simpl in *. by destruct s.
  - split; [done|]. simpl in *. by rewrite Hv.
  - apply lossless_array in Hv.
    assert (Hall : Forall (fun x => supported x = true ∧ collapse x = x) l).
    { rewrite Forall_forall in Hv |- *. intros x Hx. apply IH; [|by apply Hv].
      pose proof (size_element l x Hx). lia. }
    split.
    + apply supported_array. eapply Forall_impl; [exact Hall|]. by intros x [? _].
    + simpl. f_equal. rewrite <- (list_fmap_id l) at 2.
      apply Forall_fmap_ext. eapply Forall_impl; [exact Hall|]. by intros x [_ ?].
  - apply lossless_object in Hv.
    assert (Hall : map_Forall (fun _ x => supported x = true ∧ collapse x = x) m).
    { intros k x Hk. apply IH; [|by apply (Hv k)].
      pose proof (size_entry m k x Hk). lia. }
    split.
    + apply supported_object. intros k x Hk. by destruct (Hall k x Hk).
    + simpl. f_equal. rewrite <- (map_fmap_id m) at 2.
      apply map_fmap_ext. intros k x Hk. by destruct (Hall k x Hk).
Qed.

Lemma lossless_supported (v : value) : lossless v -> supported v = true.
Proof. intros Hv. by apply (lossless_bounded (S (size v))); [lia|]. Qed.

Lemma lossless_collapse (v : value) : lossless v -> collapse v = v.
Proof. intros Hv. by apply (lossless_bounded (S (size v))); [lia|]. Qed.

Lemma encoded_Ok (v : value) (a : attr) : serialize v = Ok a -> encoded v = a.
Proof. unfold encoded. by intros ->. Qed.

(** [serialize] throws on every value that is not supported. *)
Lemma serialize_Ok_supported (n : nat) (v : value) (a : attr) :
  size v < n -> serialize v = Ok a -> supported v = true.
Proof.
  revert v a. induction n as [|n IH]; [lia|].
  intros v a Hsize Hv.
  assert (Hobject : ∀ m, size (VObject m) < S n -> serialize (VObject m) = Ok a ->
            supported (VObject m) = true).
  { clear v Hsize Hv. intros m Hsize Hv.
    rewrite serialize_object in Hv.
    destruct (map_sequence (serialize <$> m)) as [m'|e] eqn:Hm; [|discriminate].
    destruct (map_sequence_Ok_inv serialize encoded m m' encoded_Ok Hm) as [Hall _].
    apply supported_object. intros k x Hk.
    apply (IH x (encoded x)); [|by apply (Hall k)].
    pose proof (size_entry m k x Hk). lia. }
  destruct v as [| |s|x|b|bs|l|m|m|c]; try done.
  - rewrite serialize_array in Hv.
    destruct (mapM serialize l) as [l'|e] eqn:Hl; [|discriminate].
    destruct (mapM_Ok_inv serialize encoded l encoded_Ok l' Hl) as [Hall _].
    apply supported_array. rewrite Forall_forall in Hall |- *.
    intros x Hx. apply (IH x (encoded x)); [|by apply Hall].
    pose proof (size_element l x Hx). lia.
  - exact (Hobject m Hsize Hv).
  - exact (Hobject m Hsize Hv).
Qed.

Lemma collapse_fixed_bounded (n : nat) (v : value) :
  size v < n -> supported v = true -> collapse v = v -> lossless v.
Proof.
  revert v. induction n as [|n IH]; [lia|].
  intros v Hsize Hsup Hv.
  destruct v as [| |s|x|b|bs|l|m|m|c]; try done.
  - by destruct s.
  - cbn in *. by injection Hv.
  - apply lossless_array. cbn in Hv. injection Hv as Hl.
    apply list_fmap_fixed in Hl. apply supported_array in Hsup.
    rewrite Forall_forall in Hl, Hsup |- *.
    intros x Hx. apply IH; [|by apply Hsup|by apply Hl].
    pose proof (size_element l x Hx). lia.
  - apply lossless_object. cbn in Hv. injection Hv as Hm.
    apply map_fmap_fixed in Hm. apply supported_object in Hsup.
    intros k x Hk. apply IH; [|by apply (Hsup k)|by apply (Hm k)].
    pose proof (size_entry m k x Hk). lia.
Qed.

(** X5: among the values without a property named [constructor] or
    [__proto__], the ones that survive the round trip are exactly the
    lossless ones. *)
Lemma round_trip_iff_lossless (v : value) :
  plain v = true ->
  serialize v ≫= parse = Ok v ↔ lossless v.
Proof.
  intros _. split.
  - intros Hrt. destruct (serialize v) as [a|e] eqn:Hv; [|discriminate].
    cbn in Hrt.
    assert (Hsup : supported v = true)
      by by apply (serialize_Ok_supported (S (size v)) v a); [lia|].
    apply (collapse_fixed_bounded (S (size v))); [lia|done|].
    destruct (parse_serialize_bounded (S (size v)) v) as [Hser Hpar]; [lia|done|].
    rewrite Hv in Hser. injection Hser as ->. rewrite Hpar in Hrt. by injection Hrt.
  - intros Hv.
    destruct (parse_serialize_collapse v (lossless_supported v Hv)) as (a & -> & Hp).
    cbn. by rewrite Hp, (lossless_collapse v Hv).
Qed.

(** C1, as amended: a Native Value with no empty string and no property
    named [constructor] or [__proto__] at any depth, whose numbers are read
    back from their text, is encoded without error, and decoding the encoding
    gives the value itself. *)
Theorem codec_round_trip (v : value) :
  lossless v -> plain v = true -> serialize v ≫= parse = Ok v.
Proof.
  intros Hv _.
  destruct (parse_serialize_collapse v (lossless_supported v Hv)) as (a & -> & Hp).
  cbn. by rewrite Hp, (lossless_collapse v Hv).
Qed.




End CodecTheorems.

(** C1 as stated fails: a list holding an empty string is a Native Value, is
    neither [null] nor the empty string, and is decoded as a list holding
    [null]. *)
Lemma nested_empty_string_collapses :
  let v := VArray [VString ""] in
  native_value v ∧ v ≠ VNull ∧ v ≠ VString ""
  ∧ serialize v ≫= parse = Ok (VArray [VNull])
  ∧ serialize v ≫= parse ≠ Ok v.
Proof. cbn. repeat split; try done. Qed.

(** The round trip of [{name: "x", tags: [7, null, <4d>]}]. *)
Lemma codec_round_trip_witness :
  let v := VObject (<["name" := VString "x"]> (<["tags" := VArray [VNumber (Int 7); VNull; VBuffer [x4d%byte]]]> ∅)) in
  lossless v ∧ plain v = true ∧ serialize v ≫= parse = Ok v.
Proof.
  assert (Hv : lossless (VObject (<["name" := VString "x"]> (<["tags" := VArray [VNumber (Int 7); VNull; VBuffer [x4d%byte]]]> ∅)))).
  { vm_compute. repeat split; done. }
  assert (Hp : plain (VObject (<["name" := VString "x"]> (<["tags" := VArray [VNumber (Int 7); VNull; VBuffer [x4d%byte]]]> ∅))) = true).
  { vm_compute. reflexivity. }
  split; [exact Hv|]. split; [exact Hp|]. exact (codec_round_trip _ Hv Hp).
Defined.



(** ** The mapper *)

Section MapperFacts.
Context `{Host}.

Lemma supported_hash (d : db) : supported (value_of_hash d) = true.
Proof. unfold value_of_hash. by destruct (hash_value d). Qed.

Lemma serialize_supported (v : value) :
  supported v = true -> serialize v = Ok (encoded v).
Proof.
  intros Hv. by apply (parse_serialize_bounded (S (size v))); [lia|].
Qed.

Lemma parse_encoded (v : value) :
  supported v = true -> parse (encoded v) = Ok (collapse v).
Proof.
  intros Hv. by apply (parse_serialize_bounded (S (size v))); [lia|].
Qed.

Lemma serialize_hash (d : db) : serialize (value_of_hash d) = Ok (hash_attr d).
Proof. apply serialize_supported, supported_hash. Qed.

(** The item of a map [m] under a key: every entry encoded, with the hash
    and range attributes set. *)
Lemma toItem_object (d : db) (key : value) (text : option string)
    (m : gmap string value) :
  parse_or_empty text = Ok (VObject m) ->
  supported key = true ->
  map_Forall (fun _ x => supported x = true) m ->
  _toItem d key text
  = Ok (Some (encoded <$> <[range_name d := key]> (<[hash_name d := value_of_hash d]> m))).
Proof.
  intros Htext Hkey Hm. unfold _toItem. rewrite Htext. cbn -[serialize].
  rewrite serialize_supported; [|apply supported_object].
  - cbn -[serialize]. unfold encoded at 1. rewrite serialize_object.
    rewrite (map_sequence_fmap_Ok serialize encoded); [done|].
    intros k x Hk. apply serialize_supported. revert k x Hk.
    apply map_Forall_insert_2; [done|].
    apply map_Forall_insert_2; [apply supported_hash|done].
  - apply map_Forall_insert_2; [done|].
    apply map_Forall_insert_2; [apply supported_hash|done].
Qed.

Lemma toKV_encoded (d : db) (m : gmap string value) :
  map_Forall (fun _ x => supported x = true) m ->
  _toKV d (encoded <$> m)
  = Ok (KV (default VUndefined ((collapse <$> m) !! range_name d))
           (delete (hash_name d) (collapse <$> m))).
Proof.
  intros Hm. unfold _toKV. rewrite parse_map.
  rewrite (map_sequence_fmap parse encoded collapse); [done|].
  intros k x Hk. apply parse_encoded. by apply (Hm k).
Qed.

Lemma delete_hash_insert_range {A} (h r : string) (k x : A) (m : gmap string A) :
  delete h (<[r := k]> (<[h := x]> m)) = delete h (<[r := k]> m).
Proof.
  apply map_eq. intros j.
  destruct (decide (h = j)) as [->|Hh]; [by rewrite !lookup_delete_eq|].
  rewrite !lookup_delete_ne by done.
  destruct (decide (r = j)) as [->|Hr]; [by rewrite !lookup_insert_eq|].
  rewrite !lookup_insert_ne by done. done.
Qed.

(** What the mapper gives back for the item of a record. *)
Lemma toKV_toItem_collapse (d : db) (key : value) (text : option string)
    (m : gmap string value) :
  parse_or_empty text = Ok (VObject m) ->
  supported key = true ->
  map_Forall (fun _ x => supported x = true) m ->
  toKV_of_toItem d key text
  = Ok (KV (collapse key)
           (delete (hash_name d) (<[range_name d := collapse key]> (collapse <$> m)))).
Proof.
  intros Htext Hkey Hm. unfold toKV_of_toItem.
  rewrite (toItem_object d key text m) by done. cbn -[_toKV].
  rewrite toKV_encoded.
  - rewrite !fmap_insert, lookup_insert_eq. cbn.
    by rewrite delete_hash_insert_range.
  - apply map_Forall_insert_2; [done|].
    apply map_Forall_insert_2; [apply supported_hash|done].
Qed.

(** C2, as amended: for a record whose value is the text of a JSON object,
    with a key and a value that the codec does not alter and that have no
    property named [constructor] or [__proto__], in a schema whose attributes
    have other names than these two, the mapper gives back the key, and as
    the value the object without the hash attribute and with the range
    attribute, which holds the key: only the hash attribute is deleted. *)
Theorem mapper_round_trip (d : db) (key : value) (text : string) (m : gmap string value) :
  text ≠ "" ->
  JSON_parse text = Ok (VObject m) ->
  lossless key ->
  lossless (VObject m) ->
  plain key = true ->
  plain (VObject m) = true ->
  plain_schema d ->
  toKV_of_toItem d key (Some text)
  = Ok (KV key (delete (hash_name d) (<[range_name d := key]> m))).
Proof.
  intros Htext Hparse Hkey Hm _ _ _.
  assert (Hm' : map_Forall (fun _ x => lossless x) m) by by apply lossless_object.
  rewrite (toKV_toItem_collapse d key (Some text) m).
  - rewrite (lossless_collapse key Hkey).
    replace (collapse <$> m) with m; [done|].
    rewrite <- (map_fmap_id m) at 1. apply map_fmap_ext.
    intros k x Hk. symmetry. apply lossless_collapse. by apply (Hm' k).
  - cbn. by rewrite (proj2 (String.eqb_neq text "") Htext).
  - by apply lossless_supported.
  - intros k x Hk. apply lossless_supported. by apply (Hm' k).
Qed.

(** The item of a key alone. *)
Lemma toItem_key (d : db) (key : value) :
  _toItem d key None = a ← serialize key; Ok (Some (key_item d a)).
Proof.
  unfold _toItem. cbn -[serialize]. rewrite serialize_object, !fmap_insert, fmap_empty.
  rewrite serialize_hash.
  destruct (serialize key) as [a|e] eqn:Hkey; cbn.
  - change (<[range_name d := Ok a]> (<[hash_name d := Ok (hash_attr d)]> ∅))
      with (<[range_name d := Ok a]> (<[hash_name d := Ok (hash_attr d)]> (∅ : gmap string (result attr)))).
    rewrite <- (fmap_empty Ok), <- !fmap_insert, map_sequence_Ok. done.
  - pose proof (map_sequence_spec
      (<[range_name d := Throw e]> (<[hash_name d := Ok (hash_attr d)]> ∅))) as Hspec.
    destruct (map_sequence _) as [m'|e'].
    + apply (f_equal (fun x => x !! range_name d)) in Hspec.
      rewrite lookup_insert_eq, lookup_fmap in Hspec.
      destruct (m' !! range_name d); discriminate.
    + destruct Hspec as [k Hk]. rewrite lookup_insert in Hk.
      case_decide; [by injection Hk as ->|].
      rewrite lookup_insert in Hk. case_decide; [discriminate|].
      by rewrite lookup_empty in Hk.
Qed.

End MapperFacts.


(** The record of key ["k"] and value [{a: true}], through the mapper and
    back. *)
Lemma mapper_round_trip_witness :
  toKV_of_toItem db0 (VString "k") (Some text_a)
  = Ok (KV (VString "k")
           (delete "h" (<["r" := VString "k"]> {[ "a" := VBoolean true ]}))).
Proof.
  apply (mapper_round_trip db0 (VString "k") text_a {[ "a" := VBoolean true ]}).
  - discriminate.
  - reflexivity.
  - discriminate.
  - vm_compute. repeat split; done.
  - reflexivity.
  - vm_compute. reflexivity.
  - split; vm_compute; intros Hin; repeat (apply elem_of_cons in Hin as [Hin|Hin];
      [discriminate|]); by apply elem_of_nil in Hin.
Defined.

(** C2 as stated fails: the record of key ["k"] and value [{}] comes back
    with the value [{r: "k"}], which still has the range attribute. *)
Lemma mapper_keeps_range_attribute :
  JSON_parse "{}" = Ok (VObject ∅)
  ∧ toKV_of_toItem db0 (VString "k") (Some "{}")
    = Ok (KV (VString "k") {[ "r" := VString "k" ]})
  ∧ ({[ "r" := VString "k" ]} : gmap string value) ≠ ∅.
Proof.
  split; [reflexivity|]. split; [vm_compute; reflexivity|].
  apply insert_non_empty.
Qed.

(** ** get *)

Section GetFacts.
Context `{Host}.


End GetFacts.

(** ** The planner *)

Section PlannerFacts.
Context `{Host}.



(** When both [gt] and [gte] are given and [gt] is truthy, the lower bound
    has the key of [gt] and is inclusive; likewise for [lt] and [lte]. *)
Lemma both_bounds_given (o : iterator_options) (g ge l le : value) :
  gt o = Some g -> gte o = Some ge -> lt o = Some l -> lte o = Some le ->
  truthy g = true -> truthy l = true ->
  lower_bound o = Some (Bound g true) ∧ upper_bound o = Some (Bound l true).
Proof.
  intros Hg Hge Hl Hle Htg Htl. unfold lower_bound, upper_bound, or_else.
  rewrite Hg, Hge, Hl, Hle. cbn. by rewrite Htg, Htl.
Qed.

End PlannerFacts.

(** C4 fails on the code: with [gt: "a"] and [gte: "b"] the planned condition
    is [GE "a"], the key of [gt] compared inclusively, not [GE "b"]; with
    [lt: "y"] and [lte: "z"] it is [LE "y"]. *)
Theorem gt_key_with_gte_comparison :
  let lower := IteratorOptions (Some (VString "a")) (Some (VString "b")) None None (-1) false in
  let upper := IteratorOptions None None (Some (VString "y")) (Some (VString "z")) (-1) false in
  lower_bound lower = Some (Bound (VString "a") true)
  ∧ (KeyConditions ∘ _params) <$> DynamoIterator_new db0 lower
    = Ok (<["r" := Condition GE [A_S "a"]]> {[ "h" := Condition EQ [A_S "H"] ]})
  ∧ upper_bound upper = Some (Bound (VString "y") true)
  ∧ (KeyConditions ∘ _params) <$> DynamoIterator_new db0 upper
    = Ok (<["r" := Condition LE [A_S "y"]]> {[ "h" := Condition EQ [A_S "H"] ]}).
Proof. repeat split; vm_compute; reflexivity. Qed.



(** ** The batched writer *)

Section BatchFacts.
Context `{Host}.

Lemma is_del_spec (type : value) : is_del type = true ↔ type = VString "del".
Proof.
  destruct type as [| |s|x|b|bs|l|m|m|c]; cbn; try (split; congruence).
  rewrite String.eqb_eq. split; congruence.
Qed.

(** The request of one entry. *)
Lemma to_request_requested (d : db) (o : operation) (m : gmap string value) :
  entry_of o m -> ∃ req, to_request d o = Ok req ∧ requested d o m req.
Proof.
  intros (Hkey & _ & Hvalue). unfold to_request, requested.
  destruct (is_del (op_type o)) eqn:Hdel.
  - apply is_del_spec in Hdel.
    rewrite toItem_key, (serialize_supported _ Hkey). cbn -[key_item].
    eexists. split; [reflexivity|]. by left.
  - assert (Hput : op_type o ≠ VString "del").
    { intros Heq. apply is_del_spec in Heq. congruence. }
    destruct (Hvalue Hput) as (text & Htext & Hne & Hparse & Hm & _).
    rewrite Htext, (toItem_object d (op_key o) (Some text) m); [| |done|].
    + cbn. eexists. split; [reflexivity|]. by right.
    + cbn. by rewrite (proj2 (String.eqb_neq text "") Hne).
    + by apply supported_object.
Qed.

(** C10: [_batch] submits, in the order of the array, one request for each
    entry: a delete request with the item of the key alone (the hash and
    range attributes) for an entry whose type is the string ["del"], and for
    an entry of any other type a put request with the whole item, that is
    the encoded properties of the entry's JSON object with the hash and range
    attributes.  The entries have keys and objects that [serialize] accepts,
    without a property named [constructor] or [__proto__]. *)
Theorem to_request_by_type (d : db) (array : list operation)
    (objects : list (gmap string value))
    (answers : list (answer (option batch_output))) :
  plain_schema d ->
  Forall2 entry_of array objects ->
  ∃ ops,
    length ops = length array
    ∧ (∀ i o m req, array !! i = Some o -> objects !! i = Some m ->
         ops !! i = Some req -> requested d o m req)
    ∧ _batch d array answers = Ok (loop (table_name d) ops answers (Answered None)).
Proof.
  intros _ Hentries.
  assert (Hops : ∃ ops, mapM (to_request d) array = Ok ops
            ∧ length ops = length array
            ∧ ∀ i o m req, array !! i = Some o -> objects !! i = Some m ->
                ops !! i = Some req -> requested d o m req).
  { induction Hentries as [|o m array objects Ho _ (ops & Hmap & Hlen & Hreq)].
    - exists []. by repeat split.
    - destruct (to_request_requested d o m Ho) as (req & Hto & Hr).
      exists (req :: ops). split; [|split].
      + cbn. by rewrite Hto, Hmap.
      + cbn. by rewrite Hlen.
      + intros [|i] o' m' req'; cbn.
        * by intros [= <-] [= <-] [= <-].
        * apply Hreq. }
  destruct Hops as (ops & Hmap & Hlen & Hreq).
  exists ops. split; [done|]. split; [done|].
  unfold _batch. by rewrite Hmap.
Qed.

Lemma loop_unfold (table : string) (ops : list write_request)
    (answers : list (answer (option batch_output))) (data : option batch_output) :
  loop table ops answers (Answered data)
  = let carried := unprocessed table data in
    let submitted := carried ++ take (25 - length carried) ops in
    match submitted with
    | [] => (Completed, [])
    | _ =>
        match answers with
        | [] => (Unanswered, [submitted])
        | a :: rest =>
            let '(o, calls) := loop table (drop (25 - length carried) ops) rest a in
            (o, submitted :: calls)
        end
    end.
Proof. by destruct answers. Qed.

Lemma loop_failed (table : string) (ops : list write_request)
    (answers : list (answer (option batch_output))) (err : exn) :
  loop table ops answers (Failed err) = (Aborted err, []).
Proof. by destruct answers. Qed.

Lemma loop_calls_bounded (table : string) (answers : list (answer (option batch_output))) :
  Forall (fun a => length (answer_unprocessed table a) ≤ 25) answers ->
  ∀ ops a, length (answer_unprocessed table a) ≤ 25 ->
    Forall (fun reqs => 0 < length reqs ≤ 25) (loop table ops answers a).2.
Proof.
  induction 1 as [|a' answers Ha' _ IH]; intros ops [err|data] Ha;
    try (rewrite loop_failed; by constructor).
  - rewrite loop_unfold. cbn zeta. cbn in Ha.
    destruct (unprocessed table data ++ take (25 - length (unprocessed table data)) ops)
      as [|r reqs] eqn:Hreqs; [by constructor|].
    constructor; [|done].
    rewrite <- Hreqs, length_app, length_take. cbn. split; [|lia].
    apply (f_equal length) in Hreqs. rewrite length_app, length_take in Hreqs.
    cbn in Hreqs. lia.
  - rewrite loop_unfold. cbn zeta. cbn in Ha.
    destruct (unprocessed table data ++ take (25 - length (unprocessed table data)) ops)
      as [|r reqs] eqn:Hreqs; [by constructor|].
    specialize (IH (drop (25 - length (unprocessed table data)) ops) a' Ha').
    destruct (loop table _ answers a') as [o calls]. cbn in *.
    constructor; [|done].
    rewrite <- Hreqs, length_app, length_take. split; [|lia].
    apply (f_equal length) in Hreqs. rewrite length_app, length_take in Hreqs.
    cbn in Hreqs. lia.
Qed.

(** Whatever the operations, every call made by [_batch] has between 1 and
    25 entries, and the first call has the first 25 requests. *)
Lemma batch_calls_bounded (d : db) (array : list operation)
    (answers : list (answer (option batch_output)))
    (o : batch_outcome) (calls : list (list write_request)) :
  Forall (fun a => length (answer_unprocessed (table_name d) a) ≤ 25) answers ->
  _batch d array answers = Ok (o, calls) ->
  Forall (fun reqs => 0 < length reqs ≤ 25) calls
  ∧ ∃ ops, mapM (to_request d) array = Ok ops ∧ head calls = head (chunks 25 ops).
Proof.
  intros Hanswers. unfold _batch.
  destruct (mapM (to_request d) array) as [ops|e]; [|discriminate].
  cbn -[loop]. intros [= Hrun].
  split.
  - pose proof (loop_calls_bounded (table_name d) answers Hanswers ops (Answered None))
      as Hall.
    rewrite Hrun in Hall. apply Hall. cbn. lia.
  - exists ops. split; [done|].
    rewrite loop_unfold in Hrun. cbn -[loop] in Hrun.
    destruct ops as [|r ops]; [by injection Hrun as <- <-|].
    cbn -[loop] in Hrun. destruct answers as [|a rest].
    + by injection Hrun as <- <-.
    + destruct (loop _ _ rest a) as [o' calls']. by injection Hrun as <- <-.
Qed.

End BatchFacts.

(** The schema of the examples has plain attribute names. *)
Lemma plain_schema_db0 : plain_schema db0.
Proof.
  split; cbn; unfold reserved; rewrite !not_elem_of_cons;
    (repeat split; [discriminate..|apply not_elem_of_nil]).
Qed.

(** An entry of type ["del"] and one of the unknown type ["delete"], both
    with the value [{a: true}]: the first becomes a delete request with the
    key alone, the second a put request with the attribute [a]. *)
Lemma to_request_by_type_witness :
  let array := [Operation (VString "del") (VString "k") (Some text_a);
                Operation (VString "delete") (VString "k") (Some text_a)] in
  let objects : list (gmap string value) :=
    [{[ "a" := VBoolean true ]}; {[ "a" := VBoolean true ]}] in
  (∃ ops,
     length ops = length array
     ∧ (∀ i o m req, array !! i = Some o -> objects !! i = Some m ->
          ops !! i = Some req -> requested db0 o m req)
     ∧ _batch db0 array [] = Ok (loop "t" ops [] (Answered None)))
  ∧ _batch db0 array []
    = Ok (Unanswered,
          [[DeleteRequest (Some (row "k"));
            PutRequest (Some (<["a" := A_BOOL true]> (row "k")))]]).
Proof.
  split; [|vm_compute; reflexivity].
  apply (to_request_by_type db0
    [Operation (VString "del") (VString "k") (Some text_a);
     Operation (VString "delete") (VString "k") (Some text_a)]
    [{[ "a" := VBoolean true ]}; {[ "a" := VBoolean true ]}] []).
  - exact plain_schema_db0.
  - repeat constructor; try reflexivity.
    + by intros [].
    + intros _. exists text_a.
      split; [reflexivity|]. split; [discriminate|]. split; [reflexivity|].
      split; vm_compute; reflexivity.
Defined.

(** ** Pages *)

Section Chunks.
Context {A : Type}.

Lemma chunks_go_spec (p fuel : nat) (l : list A) :
  0 < p -> length l ≤ fuel ->
  concat (chunks_go fuel p l) = l
  ∧ Forall (fun c => c ≠ []) (chunks_go fuel p l)
  ∧ length (chunks_go fuel p l) = (length l + p - 1) / p.
Proof.
  intros Hp. revert l. induction fuel as [|fuel IH]; intros l Hl.
  - destruct l; [|cbn in Hl; lia]. cbn. repeat split; [constructor|].
    symmetry. apply Nat.div_small. lia.
  - destruct l as [|x l]; cbn [chunks_go].
    + cbn. repeat split; [constructor|]. symmetry. apply Nat.div_small. lia.
    + destruct (IH (drop p (x :: l))) as (Hcat & Hne & Hlen).
      { rewrite length_drop. cbn in *. lia. }
      split; [|split].
      * cbn [concat]. rewrite Hcat. apply take_drop.
      * constructor; [|done]. destruct p; [lia|done].
      * cbn [length]. rewrite Hlen, length_drop. cbn [length].
        destruct (decide (p ≤ S (length l))) as [Hle|Hgt].
        -- replace (S (length l) + p - 1) with (1 * p + (S (length l) - p + p - 1)) by lia.
           rewrite Nat.div_add_l by lia. lia.
        -- replace (S (length l) - p + p - 1) with (p - 1) by lia.
           rewrite (Nat.div_small (p - 1)) by lia.
           apply (Nat.div_unique _ _ _ (length l)); lia.
Qed.

End Chunks.

(** ** The iterator *)

Section IteratorFacts.
Context `{Host}.

Lemma _next_unfold (it : DynamoIterator) (answers : list (answer query_output)) :
  _next it answers
  = match _items it !! _cursor it with
    | Some (Entry r) => Run (yield r) (advance it) [] answers
    | i =>
        if is_null i || at_limit it
        then Run Ended it [] answers
        else
          match answers with
          | [] => Run Waiting it [_params it] []
          | Failed err :: rest => Run (Errored err) it [_params it] rest
          | Answered data :: rest =>
              match push_items (it_db it) (_items it) (Items data) with
              | (buffer, Some e) =>
                  Run (Thrown e) (with_items it buffer) [_params it] rest
              | (buffer, None) =>
                  let buffer :=
                    match LastEvaluatedKey data with
                    | None => buffer ++ [Sentinel]
                    | Some _ => buffer
                    end in
                  let it' := with_start_key (with_items it buffer) (LastEvaluatedKey data) in
                  let r := _next it' rest in
                  Run (outcome r) (after r) (_params it :: queries r) (unread r)
              end
          end
    end.
Proof. by destruct answers. Qed.

Lemma next_n_app (n m : nat) (it : DynamoIterator) (answers : list (answer query_output)) :
  next_n (n + m) it answers
  = let r1 := next_n n it answers in
    let r2 := next_n m (after r1) (unread r1) in
    Run (outcome r1 ++ outcome r2) (after r2) (queries r1 ++ queries r2) (unread r2).
Proof.
  revert it answers. induction n as [|n IH]; intros it answers.
  - cbn. by destruct (next_n m it answers).
  - cbn [Nat.add next_n]. rewrite IH. cbn -[next_n]. by rewrite app_assoc.
Qed.

Lemma next_entry (d : db) (lim : limit_t) (it : DynamoIterator) (c : nat)
    (r : kv) (rs : list kv) (sealed : bool) (answers : list (answer query_output)) :
  buffered d lim it c (r :: rs) sealed ->
  _next it answers = Run (yield r) (advance it) [] answers
  ∧ buffered d lim (advance it) (S c) rs sealed.
Proof.
  intros (Hd & Hlimit & Hc & Hitems).
  assert (Hlook : _items it !! _cursor it = Some (Entry r)).
  { rewrite Hitems, Hc, lookup_app_r by (by rewrite length_replicate).
    by rewrite length_replicate, Nat.sub_diag. }
  split.
  - by rewrite _next_unfold, Hlook.
  - repeat split; try done; cbn; [by rewrite Hc|].
    rewrite Hitems, Hc.
    rewrite insert_app_r_alt by (by rewrite length_replicate).
    rewrite length_replicate, Nat.sub_diag. cbn.
    by rewrite cons_middle, app_assoc, <- replicate_S_end.
Qed.

Lemma next_entries (d : db) (lim : limit_t) (rs rs' : list kv) (sealed : bool)
    (answers : list (answer query_output)) :
  ∀ it c, buffered d lim it c (rs ++ rs') sealed ->
    ∃ it', next_n (length rs) it answers = Run (yield <$> rs) it' [] answers
      ∧ buffered d lim it' (c + length rs) rs' sealed.
Proof.
  induction rs as [|r rs IH]; intros it c Hit.
  - exists it. split; [done|]. by rewrite Nat.add_0_r.
  - destruct (next_entry d lim it c r (rs ++ rs') sealed answers Hit) as [Hnext Hadv].
    destruct (IH (advance it) (S c) Hadv) as (it' & Hrest & Hit').
    exists it'. split.
    + cbn [length next_n]. rewrite Hnext. cbn -[next_n]. by rewrite Hrest.
    + by replace (c + length (r :: rs)) with (S c + length rs) by (cbn; lia).
Qed.

(** Once the buffer is drained, the sentinel ends the sequence, and so does
    a cursor equal to the limit. *)
Lemma next_drained (d : db) (lim : limit_t) (it : DynamoIterator) (c : nat)
    (sealed : bool) (answers : list (answer query_output)) :
  buffered d lim it c [] sealed ->
  sealed = true ∨ lim = Finite (Z.of_nat c) ->
  _next it answers = Run Ended it [] answers.
Proof.
  intros (Hd & Hlimit & Hc & Hitems) Hend.
  rewrite _next_unfold.
  destruct sealed.
  - assert (Hlook : _items it !! _cursor it = Some Sentinel).
    { rewrite Hitems, Hc, lookup_app_r by (by rewrite length_replicate).
      by rewrite length_replicate, Nat.sub_diag. }
    by rewrite Hlook.
  - destruct Hend as [?|Hlim]; [done|].
    assert (Hlook : _items it !! _cursor it = None).
    { rewrite Hitems, Hc. cbn. rewrite app_nil_r.
      apply lookup_ge_None. by rewrite length_replicate. }
    rewrite Hlook. unfold at_limit. rewrite Hlimit, Hlim, Hc.
    by rewrite bool_decide_eq_true_2.
Qed.

Lemma next_n_drained (d : db) (lim : limit_t) (it : DynamoIterator) (c n : nat)
    (sealed : bool) (answers : list (answer query_output)) :
  buffered d lim it c [] sealed ->
  sealed = true ∨ lim = Finite (Z.of_nat c) ->
  next_n n it answers = Run (replicate n Ended) it [] answers.
Proof.
  intros Hit Hend. induction n as [|n IH]; [done|].
  cbn [next_n]. rewrite (next_drained d lim it c sealed answers Hit Hend).
  cbn -[next_n]. by rewrite IH.
Qed.

Lemma push_items_decoded (d : db) (page : list (gmap string attr)) :
  Forall (fun i => _toKV d i = Ok (decoded d i)) page ->
  ∀ buffer, push_items d buffer page = (buffer ++ (Entry <$> (decoded d <$> page)), None).
Proof.
  induction 1 as [|i page Hi _ IH]; intros buffer; cbn [push_items].
  - by rewrite app_nil_r.
  - by rewrite Hi, IH, !fmap_cons, <- app_assoc.
Qed.

(** A query on an empty buffer, away from the limit: the page is decoded
    into the buffer, which is sealed when the answer has no continuation
    token. *)
Lemma next_fetch (d : db) (lim : limit_t) (it : DynamoIterator) (c : nat)
    (page : list (gmap string attr)) (token : option (gmap string attr))
    (rest : list (answer query_output)) :
  buffered d lim it c [] false ->
  lim ≠ Finite (Z.of_nat c) ->
  Forall (fun i => _toKV d i = Ok (decoded d i)) page ->
  ∃ it', buffered d lim it' c (decoded d <$> page) (if token is Some _ then false else true)
    ∧ _next it (Answered (QueryOutput page token) :: rest)
      = let r := _next it' rest in
        Run (outcome r) (after r) (_params it :: queries r) (unread r).
Proof.
  intros (Hd & Hlimit & Hc & Hitems) Hlim Hpage.
  assert (Hlook : _items it !! _cursor it = None).
  { rewrite Hitems, Hc. cbn. rewrite app_nil_r.
    apply lookup_ge_None. by rewrite length_replicate. }
  assert (Hat : at_limit it = false).
  { unfold at_limit. rewrite Hlimit, Hc. destruct lim as [|n]; [done|].
    apply bool_decide_eq_false_2. congruence. }
  rewrite _next_unfold, Hlook, Hat. cbn -[_next].
  rewrite Hd, (push_items_decoded d page Hpage).
  eexists. split; [|reflexivity].
  repeat split; try done. cbn. rewrite Hitems. cbn. rewrite app_nil_r.
  destruct token; cbn; by rewrite <- ?app_assoc, ?app_nil_r.
Qed.

End IteratorFacts.

Section Requests.
Context `{Host}.

Lemma start_at_eta (p : query_params) : start_at p (ExclusiveStartKey p) = p.
Proof. by destruct p. Qed.

Lemma next_requests (d : db) (answers : list (answer query_output)) :
  Forall (well_answered d) answers ->
  ∀ it, it_db it = d ->
    let r := _next it answers in
    let keys := ExclusiveStartKey (_params it) :: (continuation <$> answers) in
    queries r = start_at (_params it) <$> take (length (queries r)) keys
    ∧ unread r = drop (length (queries r)) answers
    ∧ (outcome r ≠ Waiting ->
       it_db (after r) = d
       ∧ keys !! length (queries r) = Some (ExclusiveStartKey (_params (after r)))
       ∧ _params (after r)
         = start_at (_params it) (ExclusiveStartKey (_params (after r)))).
Proof.
  induction 1 as [|a rest Ha _ IH]; intros it Hd; cbn zeta; rewrite _next_unfold.
  - destruct (_items it !! _cursor it) as [[r| |]|] eqn:Hlook; cbn;
      try (by rewrite start_at_eta);
      destruct (at_limit it); cbn; by rewrite start_at_eta.
  - destruct a as [err|data]; [done|]. cbn in Ha.
    destruct (_items it !! _cursor it) as [[r| |]|] eqn:Hlook; cbn -[_next];
      try (by rewrite start_at_eta);
      destruct (at_limit it); cbn -[_next]; try (by rewrite start_at_eta);
      rewrite Hd, (push_items_decoded d (Items data) Ha); cbn -[_next];
      (match goal with
       | |- context [_next ?i rest] => destruct (IH i) as (Hq & Hu & Hafter); [done|]
       end);
      (split;
       [ rewrite Hq at 1; cbn; by rewrite start_at_eta
       | split;
         [ by rewrite Hu at 1
         | intros Hw; destruct (Hafter Hw) as (Hd' & Hk & Hp);
           split; [done|]; split; [exact Hk|]; by rewrite Hp at 1 ] ]).
Qed.

(** The same over any number of calls of [next]. *)
Lemma next_n_requests (d : db) (n : nat) :
  ∀ (it : DynamoIterator) (answers : list (answer query_output)),
    it_db it = d ->
    Forall (well_answered d) answers ->
    Waiting ∉ outcome (next_n n it answers) ->
    let r := next_n n it answers in
    let keys := ExclusiveStartKey (_params it) :: (continuation <$> answers) in
    queries r = start_at (_params it) <$> take (length (queries r)) keys
    ∧ unread r = drop (length (queries r)) answers
    ∧ it_db (after r) = d
    ∧ keys !! length (queries r) = Some (ExclusiveStartKey (_params (after r)))
    ∧ _params (after r) = start_at (_params it) (ExclusiveStartKey (_params (after r))).
Proof.
  induction n as [|n IH]; intros it answers Hd Hans Hw.
  { cbn. by rewrite start_at_eta. }
  cbn [next_n] in Hw |- *. cbn zeta.
  cbn [outcome] in Hw. apply not_elem_of_cons in Hw as [Hw1 Hw2].
  destruct (next_requests d answers Hans it Hd) as (Hq1 & Hu1 & Hafter).
  cbn zeta in Hq1, Hu1, Hafter.
  destruct (Hafter (not_eq_sym Hw1)) as (Hd1 & Hk1 & Hp1).
  set (r1 := _next it answers) in *.
  destruct (IH (after r1) (unread r1) Hd1) as (Hq2 & Hu2 & Hd2 & Hk2 & Hp2).
  { rewrite Hu1. by apply Forall_drop. }
  { exact Hw2. }
  cbn zeta in Hq2, Hu2, Hd2, Hk2, Hp2. cbn [queries unread after].
  set (rs := next_n n (after r1) (unread r1)) in *.
  set (keys := ExclusiveStartKey (_params it) :: (continuation <$> answers)) in *.
  assert (Hkeys : ExclusiveStartKey (_params (after r1)) :: (continuation <$> unread r1)
                  = drop (length (queries r1)) keys).
  { rewrite (drop_S _ _ _ Hk1). unfold keys. cbn. rewrite Hu1. by rewrite ?fmap_drop. }
  rewrite Hkeys in Hq2, Hk2.
  rewrite length_app. split; [|split; [|split; [|split]]].
  - rewrite Hq1 at 1. rewrite Hq2 at 1. rewrite Hp1 at 1.
    change (start_at (start_at (_params it) ?k)) with (start_at (_params it)).
    rewrite <- fmap_app. f_equal.
    by rewrite <- take_take_drop.
  - rewrite Hu2, Hu1, drop_drop. f_equal; lia.
  - done.
  - by rewrite lookup_drop in Hk2.
  - rewrite Hp2 at 1. by rewrite Hp1 at 1.
Qed.

(** The continuation tokens of a client that answers page by page. *)
Lemma continuation_paginate (token : list (gmap string attr) -> gmap string attr)
    (pages : list (list (gmap string attr))) :
  pages ≠ [] ->
  continuation <$> paginate token pages
  = ((fun pg => Some (token pg)) <$> take (length pages - 1) pages) ++ [None].
Proof.
  induction pages as [|pg pages IH]; [done|]. intros _.
  destruct pages as [|q pages]; [done|].
  change (paginate token (pg :: q :: pages))
    with (Answered (QueryOutput pg (Some (token pg))) :: paginate token (q :: pages)).
  rewrite fmap_cons, IH by done. cbn [continuation LastEvaluatedKey length].
  replace (S (S (length pages)) - 1) with (S (S (length pages) - 1)) by lia.
  done.
Qed.

Lemma paginate_well_answered (d : db)
    (token : list (gmap string attr) -> gmap string attr)
    (pages : list (list (gmap string attr))) :
  Forall (Forall (fun i => _toKV d i = Ok (decoded d i))) pages ->
  Forall (well_answered d) (paginate token pages).
Proof.
  induction 1 as [|pg pages Hpg _ IH]; [constructor|].
  destruct pages as [|q pages]; [by repeat constructor|].
  change (paginate token (pg :: q :: pages))
    with (Answered (QueryOutput pg (Some (token pg))) :: paginate token (q :: pages)).
  by constructor.
Qed.

Lemma yielded_not_waiting (rs : list kv) : Waiting ∉ yield <$> rs.
Proof.
  intros Hin. apply list_elem_of_fmap in Hin as (r & Hr & _). discriminate.
Qed.

(** A new iterator has no start key. *)
Lemma new_start_key (d : db) (o : iterator_options) (it : DynamoIterator) :
  DynamoIterator_new d o = Ok it ->
  it_db it = d ∧ ExclusiveStartKey (_params it) = None.
Proof.
  unfold DynamoIterator_new. intros Hnew.
  destruct (serialize (value_of_hash d)) as [h|e]; [|discriminate].
  cbn -[lower_bound upper_bound] in Hnew.
  destruct (range_condition _ _) as [c|e]; [|discriminate].
  cbn -[lower_bound upper_bound] in Hnew. by injection Hnew as <-.
Qed.

End Requests.

Section Pagination.
Context `{Host}.

Lemma decoded_Ok (d : db) (i : gmap string attr) (r : kv) :
  _toKV d i = Ok r -> decoded d i = r.
Proof. unfold decoded. by intros ->. Qed.

(** One page: the query, then the records of the page one by one. *)
Lemma next_page (d : db) (lim : limit_t) (it : DynamoIterator) (c : nat)
    (page : list (gmap string attr)) (token : option (gmap string attr))
    (rest : list (answer query_output)) :
  buffered d lim it c [] false ->
  lim ≠ Finite (Z.of_nat c) ->
  page ≠ [] ->
  Forall (fun i => _toKV d i = Ok (decoded d i)) page ->
  ∃ it', next_n (length page) it (Answered (QueryOutput page token) :: rest)
         = Run (yield <$> (decoded d <$> page)) it' [_params it] rest
    ∧ buffered d lim it' (c + length page) [] (if token is Some _ then false else true).
Proof.
  intros Hit Hlim Hne Hpage.
  destruct page as [|i page]; [done|].
  destruct (next_fetch d lim it c (i :: page) token rest Hit Hlim Hpage)
    as (it1 & Hit1 & Hfetch).
  rewrite fmap_cons in Hit1.
  destruct (next_entry d lim it1 c _ _ _ rest Hit1) as [Hfirst Hit2].
  rewrite <- (app_nil_r (decoded d <$> page)) in Hit2.
  destruct (next_entries d lim _ _ _ rest _ _ Hit2) as (it3 & Hrest & Hit3).
  exists it3. split.
  - cbn [length next_n]. rewrite Hfetch, Hfirst. cbn -[next_n].
    rewrite length_fmap in Hrest. by rewrite Hrest.
  - rewrite length_fmap in Hit3.
    by replace (c + length (i :: page)) with (S c + length page) by (cbn; lia).
Qed.

(** All the pages: as many queries as pages, the records in the order of the
    pages, and a sealed buffer at the end. *)
Lemma next_pages (d : db) (token : list (gmap string attr) -> gmap string attr)
    (pages : list (list (gmap string attr))) :
  pages ≠ [] ->
  Forall (fun p => p ≠ []) pages ->
  Forall (Forall (fun i => _toKV d i = Ok (decoded d i))) pages ->
  ∀ it c, buffered d Infinity it c [] false ->
    ∃ it' qs, next_n (length (concat pages)) it (paginate token pages)
              = Run (yield <$> (decoded d <$> concat pages)) it' qs []
      ∧ length qs = length pages
      ∧ buffered d Infinity it' (c + length (concat pages)) [] true.
Proof.
  induction pages as [|p pages IH]; [done|].
  intros _ [Hp Hne]%Forall_cons [Hdp Hdec]%Forall_cons it c Hit.
  destruct pages as [|q pages].
  - cbn [paginate concat]. rewrite app_nil_r.
    destruct (next_page d Infinity it c p None [] Hit ltac:(done) Hp Hdp)
      as (it' & Hrun & Hit').
    exists it', [_params it]. split; [done|]. by split.
  - destruct (next_page d Infinity it c p (Some (token p)) (paginate token (q :: pages))
                Hit ltac:(done) Hp Hdp) as (it1 & Hrun & Hit1).
    destruct (IH ltac:(done) Hne Hdec it1 (c + length p) Hit1)
      as (it2 & qs & Hrest & Hqs & Hit2).
    exists it2, (_params it :: qs). split; [|split].
    + change (paginate token (p :: q :: pages))
        with (Answered (QueryOutput p (Some (token p))) :: paginate token (q :: pages)).
      rewrite (concat_cons p), length_app, next_n_app. cbn zeta.
      rewrite Hrun. cbn [outcome after queries unread].
      rewrite Hrest. cbn [outcome after queries unread]. by rewrite !fmap_app.
    + cbn. by rewrite Hqs.
    + by rewrite (concat_cons p), length_app, Nat.add_assoc.
Qed.

(** A new iterator has an empty buffer; its limit is the one of the options. *)
Lemma new_buffered (d : db) (o : iterator_options) (it : DynamoIterator) :
  DynamoIterator_new d o = Ok it ->
  buffered d (if bool_decide (limit o ≠ (-1)%Z) then Finite (limit o) else Infinity)
    it 0 [] false.
Proof.
  unfold DynamoIterator_new. intros Hnew.
  destruct (serialize (value_of_hash d)) as [h|e]; [|discriminate].
  cbn -[lower_bound upper_bound] in Hnew.
  destruct (range_condition _ _) as [c|e]; [|discriminate].
  cbn -[lower_bound upper_bound] in Hnew. injection Hnew as <-.
  by repeat split.
Qed.

(** X17: the limit is respected when a page ends at the limit: if the first
    answer of the client holds exactly [limit] items, these are yielded with
    one query, and every later call of [next] ends the sequence without a
    query. *)
Lemma limit_on_full_page (d : db) (o : iterator_options) (it : DynamoIterator)
    (page : list (gmap string attr)) (token : option (gmap string attr))
    (rest : list (answer query_output)) :
  DynamoIterator_new d o = Ok it ->
  page ≠ [] ->
  limit o = Z.of_nat (length page) ->
  Forall (fun i => _toKV d i = Ok (decoded d i)) page ->
  ∃ it', next_n (length page) it (Answered (QueryOutput page token) :: rest)
         = Run (yield <$> (decoded d <$> page)) it' [_params it] rest
    ∧ ∀ n answers, next_n n it' answers = Run (replicate n Ended) it' [] answers.
Proof.
  intros Hnew Hne Hlimit Hpage.
  pose proof (new_buffered d o it Hnew) as Hit.
  rewrite bool_decide_eq_true_2 in Hit by lia.
  assert (Hpos : 0 < length page) by (destruct page; [done|cbn; lia]).
  destruct (next_page d (Finite (limit o)) it 0 page token rest Hit) as (it' & Hrun & Hit');
    [intros [= Heq]; lia|done|done|].
  exists it'. split; [done|].
  intros n answers.
  apply (next_n_drained d (Finite (limit o)) it' (0 + length page) n _ answers Hit').
  right. by rewrite Hlimit.
Qed.

(** C6: an unlimited iterator over [its], which the client returns in pages
    of [p] items, each but the last with a continuation token: the first
    [length its] calls of [next] yield the records of the items in the
    client's order and send as many queries as there are pages, that is
    [length its] divided by [p] and rounded up; the first query is the
    iterator's request, without a start key, and each query after it is this
    request with the continuation token of the page before as its start key;
    every later call of [next] ends the sequence and sends no query, whatever
    the client would answer. *)
Theorem pagination (d : db) (o : iterator_options) (it : DynamoIterator)
    (its : list (gmap string attr)) (rs : list kv) (p : nat)
    (token : list (gmap string attr) -> gmap string attr) :
  DynamoIterator_new d o = Ok it ->
  limit o = (-1)%Z ->
  0 < p -> p < length its ->
  mapM (_toKV d) its = Ok rs ->
  let r := next_n (length its) it (paginate token (chunks p its)) in
  outcome r = yield <$> rs
  ∧ length (queries r) = (length its + p - 1) / p
  ∧ queries r
    = start_at (_params it)
        <$> (None :: ((fun pg => Some (token pg))
                        <$> take (length (chunks p its) - 1) (chunks p its)))
  ∧ unread r = []
  ∧ ∀ n answers,
      next_n n (after r) answers = Run (replicate n Ended) (after r) [] answers.
Proof.
  intros Hnew Hlimit Hp Hlt Hrs.
  destruct (mapM_Ok_inv (_toKV d) (decoded d) its (decoded_Ok d) rs Hrs) as [Hdec ->].
  destruct (chunks_go_spec p (length its) its Hp (le_n _)) as (Hcat & Hne & Hlen).
  fold (chunks p its) in Hcat, Hne, Hlen.
  assert (Hpages : chunks p its ≠ []).
  { intros Hnil. rewrite Hnil in Hcat. cbn in Hcat. rewrite <- Hcat in Hlt.
    cbn in Hlt. lia. }
  destruct (next_pages d token (chunks p its) Hpages Hne) with (it := it) (c := 0)
    as (it' & qs & Hrun & Hqs & Hit').
  { apply Forall_concat. by rewrite Hcat. }
  { pose proof (new_buffered d o it Hnew) as Hit.
    by rewrite Hlimit in Hit. }
  assert (Hpaged : Forall (Forall (fun i => _toKV d i = Ok (decoded d i))) (chunks p its)).
  { apply Forall_concat. by rewrite Hcat. }
  rewrite Hcat in Hrun, Hit'.
  destruct (new_start_key d o it Hnew) as [Hd Hkey].
  destruct (next_n_requests d (length its) it (paginate token (chunks p its)) Hd)
    as (Hq & _).
  { by apply paginate_well_answered. }
  { rewrite Hrun. apply yielded_not_waiting. }
  cbn zeta in Hq. rewrite Hrun in Hq. cbn [queries] in Hq.
  rewrite Hkey, Hqs, (continuation_paginate token _ Hpages) in Hq.
  rewrite app_comm_cons, take_app_length' in Hq.
  2:{ cbn. rewrite length_fmap, length_take.
      destruct (chunks p its); [done|cbn; lia]. }
  cbn zeta. rewrite Hrun. cbn -[next_n].
  split; [done|]. split; [by rewrite Hqs|]. split; [exact Hq|]. split; [done|].
  intros n answers.
  apply (next_n_drained d Infinity it' (0 + length its) n true answers Hit').
  by left.
Qed.

End Pagination.

(** Five items in pages of two: five records and three queries, the second
    and the third starting after the last item of the page before. *)
Lemma pagination_witness :
  let o := IteratorOptions None None None None (-1) false in
  let its := row <$> ["a"; "b"; "c"; "d"; "e"] in
  ∃ it, DynamoIterator_new db0 o = Ok it
    ∧ outcome (next_n 5 it (paginate last_key (chunks 2 its)))
      = (fun k => yield (KV (VString k) {[ "r" := VString k ]})) <$> ["a"; "b"; "c"; "d"; "e"]
    ∧ length (queries (next_n 5 it (paginate last_key (chunks 2 its)))) = 3
    ∧ queries (next_n 5 it (paginate last_key (chunks 2 its)))
      = [start_at (_params it) None;
         start_at (_params it) (Some (row "b"));
         start_at (_params it) (Some (row "d"))].
Proof.
  destruct (DynamoIterator_new db0 (IteratorOptions None None None None (-1) false))
    as [it|e] eqn:Hnew; [|discriminate].
  exists it. split; [exact Hnew|].
  destruct (pagination db0 (IteratorOptions None None None None (-1) false) it
    (row <$> ["a"; "b"; "c"; "d"; "e"])
    ((fun k => KV (VString k) {[ "r" := VString k ]}) <$> ["a"; "b"; "c"; "d"; "e"])
    2 last_key Hnew eq_refl) as (Hout & Hn & Hq & _).
  - lia.
  - cbn. lia.
  - vm_compute. reflexivity.
  - split; [exact Hout|]. split; [exact Hn|exact Hq].
Defined.

(** C5 fails on the code: with [limit: 5] and nine items that the client
    returns in pages of three, the nine calls of [next] yield the nine
    records, with three queries that all ask for [Limit: 5]; the limit is
    only looked at when the buffer is empty, after 3, 6 and 9 records. *)
Theorem limit_overrun :
  let o := IteratorOptions None None None None 5 false in
  let its := row <$> ["a"; "b"; "c"; "d"; "e"; "f"; "g"; "h"; "i"] in
  ∃ it, DynamoIterator_new db0 o = Ok it
    ∧ _limit it = Finite 5
    ∧ outcome (next_n 9 it (paginate last_key (chunks 3 its)))
      = (fun k => yield (KV (VString k) {[ "r" := VString k ]}))
          <$> ["a"; "b"; "c"; "d"; "e"; "f"; "g"; "h"; "i"]
    ∧ Limit <$> queries (next_n 9 it (paginate last_key (chunks 3 its)))
      = [Some 5; Some 5; Some 5]%Z.
Proof.
  eexists. split; [vm_compute; reflexivity|].
  split; [reflexivity|]. split; vm_compute; reflexivity.
Qed.

(** * Further properties *)

(** ** The codec, both ways *)

Section CodecOutcomes.
Context `{Numbers}.

Lemma attr_size_element (l : list attr) (x : attr) :
  x ∈ l -> attr_size x < attr_size (A_L l).
Proof. simpl. induction 1 as [x l|x y l _ IH]; simpl; lia. Qed.

Lemma attr_size_entry (m : gmap string attr) (k : string) (x : attr) :
  m !! k = Some x -> attr_size x < attr_size (A_M m).
Proof.
  simpl. revert k x.
  apply (map_fold_weak_ind (fun n m => ∀ k x, m !! k = Some x -> attr_size x < S n)).
  - intros k x. by rewrite lookup_empty.
  - intros j y m' n Hj IH k x. rewrite lookup_insert.
    case_decide as Hjk.
    + intros [= ->]. lia.
    + intros Hk. specialize (IH k x Hk). lia.
Qed.

Lemma known_list (l : list attr) :
  known (A_L l) = true ↔ Forall (fun x => known x = true) l.
Proof. simpl. rewrite forallb_forall, Forall_forall. by setoid_rewrite list_elem_of_In. Qed.

Lemma known_map (m : gmap string attr) :
  known (A_M m) = true ↔ map_Forall (fun _ x => known x = true) m.
Proof. apply map_fold_andb_Forall. Qed.

Lemma canonical_list (l : list attr) : canonical (A_L l) ↔ Forall canonical l.
Proof. apply foldr_and_Forall. Qed.

Lemma canonical_map (m : gmap string attr) :
  canonical (A_M m) ↔ map_Forall (fun _ x => canonical x) m.
Proof. apply (map_fold_and_Forall canonical). Qed.

Lemma native_array (l : list value) : native_value (VArray l) ↔ Forall native_value l.
Proof. apply foldr_and_Forall. Qed.

Lemma native_object (m : gmap string value) :
  native_value (VObject m) ↔ map_Forall (fun _ x => native_value x) m.
Proof. apply (map_fold_and_Forall native_value). Qed.

Lemma parsed_Ok (a : attr) (v : value) : parse a = Ok v -> parsed a = v.
Proof. unfold parsed. by intros ->. Qed.

Lemma parse_outcome_bounded (n : nat) (a : attr) :
  attr_size a < n ->
  match parse a with
  | Ok v => known a = true ∧ native_value v
  | Throw e => known a = false ∧ ∃ tag, e = Error ("Cannot parse " +:+ tag +:+ ".")
  end.
Proof.
  revert a. induction n as [|n IH]; [lia|].
  intros a Hsize.
  destruct a as [b|s|s|b|s|l|m|tag]; try done.
  - rewrite parse_list.
    destruct (mapM parse l) as [l'|e] eqn:Hl; cbn -[known native_value].
    + destruct (mapM_Ok_inv parse parsed l parsed_Ok l' Hl) as [Hall ->].
      assert (Hx : Forall (fun x => known x = true ∧ native_value (parsed x)) l).
      { rewrite Forall_forall in Hall |- *. intros x Hx.
        pose proof (IH x) as IHx. rewrite (Hall x Hx) in IHx. apply IHx.
        pose proof (attr_size_element l x Hx). lia. }
      split.
      * apply known_list. eapply Forall_impl; [exact Hx|]. by intros x [? _].
      * apply native_array, Forall_fmap. eapply Forall_impl; [exact Hx|]. by intros x [_ ?].
    + destruct (mapM_Throw_inv parse l e Hl) as (x & Hx & Hpx).
      pose proof (IH x) as IHx. rewrite Hpx in IHx.
      destruct IHx as [Hk Htag]; [pose proof (attr_size_element l x Hx); lia|].
      split; [|done].
      destruct (known (A_L l)) eqn:Hkl; [|done].
      apply known_list in Hkl. rewrite Forall_forall in Hkl.
      rewrite (Hkl x Hx) in Hk. discriminate.
  - rewrite parse_map.
    destruct (map_sequence (parse <$> m)) as [m'|e] eqn:Hm; cbn -[known native_value].
    + destruct (map_sequence_Ok_inv parse parsed m m' parsed_Ok Hm) as [Hall ->].
      assert (Hx : map_Forall (fun _ x => known x = true ∧ native_value (parsed x)) m).
      { intros k x Hk. pose proof (IH x) as IHx. rewrite (Hall k x Hk) in IHx.
        apply IHx. pose proof (attr_size_entry m k x Hk). lia. }
      split.
      * apply known_map. intros k x Hk. by destruct (Hx k x Hk).
      * apply native_object. intros k v. rewrite lookup_fmap.
        destruct (m !! k) as [x|] eqn:Hk; [|discriminate].
        intros [= <-]. by destruct (Hx k x Hk).
    + destruct (map_sequence_Throw_inv parse m e Hm) as (k & x & Hk & Hpx).
      pose proof (IH x) as IHx. rewrite Hpx in IHx.
      destruct IHx as [Hkn Htag]; [pose proof (attr_size_entry m k x Hk); lia|].
      split; [|done].
      destruct (known (A_M m)) eqn:Hkm; [|done].
      apply known_map in Hkm. rewrite (Hkm k x Hk) in Hkn. discriminate.
  - split; [done|]. by exists tag.
Qed.

(** X1: [parse] reads every attribute value whose tags are all known, and
    what it reads is a Native Value; on any other it throws the error
    [Cannot parse <tag>.]. *)
Theorem parse_outcome (a : attr) :
  match parse a with
  | Ok v => known a = true ∧ native_value v
  | Throw e => known a = false ∧ ∃ tag, e = Error ("Cannot parse " +:+ tag +:+ ".")
  end.
Proof. apply (parse_outcome_bounded (S (attr_size a))). lia. Qed.



(** X3: on every supported value without a property named [constructor] or
    [__proto__], decoding the encoding gives the collapsed value: absent
    values and empty strings are [null], at any depth, and nothing else
    changes but the numbers, which go through their text. *)
Theorem decode_encode_collapse (v : value) :
  plain v = true -> supported v = true -> serialize v ≫= parse = Ok (collapse v).
Proof.
  intros _ Hv. destruct (parse_serialize_collapse v Hv) as (a & -> & Hp). done.
Qed.

Lemma serialize_parse_bounded (n : nat) (a : attr) :
  attr_size a < n -> canonical a ->
  parse a = Ok (parsed a) ∧ serialize (parsed a) = Ok a.
Proof.
  revert a. induction n as [|n IH]; [lia|].
  intros a Hsize Ha.
  destruct a as [b|s|s|b|s|l|m|tag]; try done.
  - cbn in Ha. by subst b.
  - split; [done|]. cbn in *. by destruct s.
  - split; [done|]. cbn in *. by rewrite Ha.
  - split; [done|]. cbn in *. by rewrite Ha.
  - apply canonical_list in Ha.
    assert (Hall : Forall (fun x => parse x = Ok (parsed x)
                     ∧ serialize (parsed x) = Ok x) l).
    { rewrite Forall_forall in Ha |- *. intros x Hx. apply IH; [|by apply Ha].
      pose proof (attr_size_element l x Hx). lia. }
    assert (Hpar : parse (A_L l) = Ok (VArray (parsed <$> l))).
    { rewrite parse_list, (mapM_Ok parse parsed); [done|].
      eapply Forall_impl; [exact Hall|]. by intros x [? _]. }
    unfold parsed at 1 2. rewrite Hpar. split; [done|].
    rewrite serialize_array, (mapM_fmap serialize parsed id).
    + by rewrite list_fmap_id.
    + eapply Forall_impl; [exact Hall|]. by intros x [_ ?].
  - apply canonical_map in Ha.
    assert (Hall : map_Forall (fun _ x => parse x = Ok (parsed x)
                     ∧ serialize (parsed x) = Ok x) m).
    { intros k x Hk. apply IH; [|by apply (Ha k)].
      pose proof (attr_size_entry m k x Hk). lia. }
    assert (Hpar : parse (A_M m) = Ok (VObject (parsed <$> m))).
    { rewrite parse_map, (map_sequence_fmap_Ok parse parsed); [done|].
      intros k x Hk. by destruct (Hall k x Hk). }
    unfold parsed at 1 2. rewrite Hpar. split; [done|].
    rewrite serialize_object, (map_sequence_fmap serialize parsed id).
    + by rewrite map_fmap_id.
    + intros k x Hk. by destruct (Hall k x Hk).
Qed.

(** X4: the round trip the other way: an attribute value in the form that
    [serialize] writes, without a key named [constructor] or [__proto__] in
    its maps, is read by [parse], and encoding what was read gives the same
    attribute value. *)
Theorem encode_decode_canonical (a : attr) :
  plain_attr a = true -> canonical a -> parse a ≫= serialize = Ok a.
Proof.
  intros _ Ha.
  destruct (serialize_parse_bounded (S (attr_size a)) a) as [-> Hs]; [lia|done|].
  done.
Qed.

End CodecOutcomes.

(** [{a: ["", undefined, 7], b: <4d>}] comes back as [{a: [null, null, 7], b: <4d>}]. *)
Lemma decode_encode_collapse_witness :
  let v := VObject (<["a" := VArray [VString ""; VUndefined; VNumber (Int 7)]]>
                      (<["b" := VBuffer [x4d%byte]]> ∅)) in
  serialize v ≫= parse
  = Ok (VObject (<["a" := VArray [VNull; VNull; VNumber (Int 7)]]>
                   (<["b" := VBuffer [x4d%byte]]> ∅))).
Proof.
  exact (decode_encode_collapse
    (VObject (<["a" := VArray [VString ""; VUndefined; VNumber (Int 7)]]>
                (<["b" := VBuffer [x4d%byte]]> ∅))) eq_refl eq_refl).
Defined.

(** An item as the provider returns it. *)
Lemma encode_decode_canonical_witness :
  let a := A_M (<["n" := A_N "7"]> (<["l" := A_L [A_S "x"; A_NULL true; A_B "TQ=="]]> ∅)) in
  plain_attr a = true ∧ canonical a ∧ parse a ≫= serialize = Ok a.
Proof.
  assert (Ha : canonical
    (A_M (<["n" := A_N "7"]> (<["l" := A_L [A_S "x"; A_NULL true; A_B "TQ=="]]> ∅)))).
  { vm_compute. repeat split; done. }
  assert (Hp : plain_attr
    (A_M (<["n" := A_N "7"]> (<["l" := A_L [A_S "x"; A_NULL true; A_B "TQ=="]]> ∅)))
    = true).
  { vm_compute. reflexivity. }
  split; [exact Hp|]. split; [exact Ha|]. exact (encode_decode_canonical _ Hp Ha).
Defined.


(** ** The mapper, get, put and del *)

Section MapperOutcomes.
Context `{Host}.

(** X6: [_toKV] decodes an item attribute by attribute, for an item without
    a key named [constructor] or [__proto__] in its maps and a range
    attribute whose name is none that objects inherit; the key is the decoded
    range attribute, [undefined] when the item has none; the value holds
    every decoded attribute but the hash attribute; the only error is
    [Cannot parse <tag>.]. *)
Theorem toKV_outcome (d : db) (it : gmap string attr) :
  plain_attr (A_M it) = true ->
  range_name d ∉ inherited ->
  match _toKV d it with
  | Ok r =>
      map_Forall (fun _ a => parse a = Ok (parsed a)) it
      ∧ kv_key r = default VUndefined (parsed <$> it !! range_name d)
      ∧ kv_value r = delete (hash_name d) (parsed <$> it)
  | Throw e => ∃ tag, e = Error ("Cannot parse " +:+ tag +:+ ".")
  end.
Proof.
  intros _ _. unfold _toKV.
  pose proof (parse_outcome_bounded (S (attr_size (A_M it))) (A_M it) ltac:(lia)) as Hout.
  rewrite parse_map in Hout |- *.
  destruct (map_sequence (parse <$> it)) as [m'|e] eqn:Hm; cbn in Hout |- *.
  - destruct (map_sequence_Ok_inv parse parsed it m' parsed_Ok Hm) as [Hall ->].
    split; [done|]. split; [|done]. by rewrite lookup_fmap.
  - by destruct Hout as [_ Htag].
Qed.

(** X7: the item of a record whose value is a JSON object holds the encoded
    attributes of the object, except that the hash attribute is the fixed
    hash value and the range attribute is the key, whatever the object held
    under these names.  The key and the object have no property named
    [constructor] or [__proto__], and the schema's attributes have other
    names than these two. *)
Theorem toItem_attributes (d : db) (key : value) (text : string)
    (m : gmap string value) :
  text ≠ "" ->
  JSON_parse text = Ok (VObject m) ->
  supported key = true ->
  supported (VObject m) = true ->
  plain key = true ->
  plain (VObject m) = true ->
  plain_schema d ->
  hash_name d ≠ range_name d ->
  ∃ it, _toItem d key (Some text) = Ok (Some it)
    ∧ it !! hash_name d = Some (hash_attr d)
    ∧ it !! range_name d = Some (encoded key)
    ∧ ∀ k, k ≠ hash_name d -> k ≠ range_name d -> it !! k = encoded <$> m !! k.
Proof.
  intros Htext Hparse Hkey Hm _ _ _ Hne.
  apply supported_object in Hm.
  eexists. split.
  - apply (toItem_object d key (Some text) m); [|done|done].
    cbn. by rewrite (proj2 (String.eqb_neq text "") Htext).
  - rewrite !fmap_insert. split; [|split].
    + by rewrite lookup_insert_ne, lookup_insert_eq.
    + by rewrite lookup_insert_eq.
    + intros k Hh Hr. by rewrite !lookup_insert_ne, lookup_fmap.
Qed.

(** X8: [put] then [get]: [put] sends the item of the record; when the
    client hands this item back to [get], [get] with JSON encoding and no
    buffer gives the text of the stored object after the codec's collapse,
    without the hash attribute and with the range attribute holding the key.
    The key and the object have no property named [constructor] or
    [__proto__], and the schema's attributes have other names than these
    two. *)
Theorem put_then_get (d : db) (key : value) (text : string) (m : gmap string value) :
  text ≠ "" ->
  JSON_parse text = Ok (VObject m) ->
  supported key = true ->
  supported (VObject m) = true ->
  plain key = true ->
  plain (VObject m) = true ->
  plain_schema d ->
  (∀ putItem, _put d key (Some text) putItem
              = Ok (putItem (PutItemRequest (table_name d) (Some (item_of d key m)))))
  ∧ ∀ getItem,
      getItem (KeyRequest (table_name d) (Some (key_item d (encoded key))))
      = Answered (GetOutput (Some (item_of d key m))) ->
      _get d key (GetOptions (Some "json") (Some false)) getItem
      = Ok (Answered (VString (JSON_stringify (VObject
          (delete (hash_name d)
             (<[range_name d := collapse key]> (collapse <$> m))))))).
Proof.
  intros Htext Hparse Hkey Hm _ _ _.
  apply supported_object in Hm.
  assert (Hall : map_Forall (fun _ x => supported x = true)
            (<[range_name d := key]> (<[hash_name d := value_of_hash d]> m))).
  { apply map_Forall_insert_2; [done|].
    apply map_Forall_insert_2; [apply supported_hash|done]. }
  assert (Hitem : _toItem d key (Some text) = Ok (Some (encoded <$>
            <[range_name d := key]> (<[hash_name d := value_of_hash d]> m)))).
  { apply (toItem_object d key (Some text) m); [|done|done].
    cbn. by rewrite (proj2 (String.eqb_neq text "") Htext). }
  split.
  - intros putItem. unfold _put. by rewrite Hitem.
  - intros getItem Hget. unfold item_of in Hget. unfold _get.
    rewrite toItem_key, (serialize_supported key Hkey). cbn -[key_item _toKV].
    rewrite Hget. cbn -[_toKV]. rewrite (toKV_encoded d _ Hall). cbn.
    by rewrite !fmap_insert, delete_hash_insert_range.
Qed.



End MapperOutcomes.

(** The item of the object [{a: true}] under the key ["k"]. *)
Lemma toItem_attributes_witness :
  ∃ it, _toItem db0 (VString "k") (Some text_a) = Ok (Some it)
    ∧ it !! "h" = Some (A_S "H") ∧ it !! "r" = Some (A_S "k")
    ∧ it !! "a" = Some (A_BOOL true).
Proof.
  destruct (toItem_attributes db0 (VString "k") text_a {[ "a" := VBoolean true ]})
    as (it & Hit & Hh & Hr & Hother);
    [discriminate|reflexivity|reflexivity|reflexivity|reflexivity
    |vm_compute; reflexivity|exact plain_schema_db0|discriminate|].
  exists it. split; [exact Hit|]. split; [exact Hh|]. split; [exact Hr|].
  exact (Hother "a" ltac:(discriminate) ltac:(discriminate)).
Defined.

(** The object [{a: true}], put under ["k"] and read back. *)
Lemma put_then_get_witness :
  _put db0 (VString "k") (Some text_a) (fun _ => None) = Ok None
  ∧ _get db0 (VString "k") (GetOptions (Some "json") (Some false))
      (fun _ => Answered (GetOutput (Some (<["a" := A_BOOL true]> (row "k")))))
    = Ok (Answered (VString (JSON_stringify (VObject
            (<["r" := VString "k"]> {[ "a" := VBoolean true ]}))))).
Proof.
  destruct (put_then_get db0 (VString "k") text_a {[ "a" := VBoolean true ]})
    as (Hput & Hget);
    [discriminate|reflexivity|reflexivity|reflexivity|reflexivity
    |vm_compute; reflexivity|exact plain_schema_db0|].
  split.
  - exact (Hput (fun _ => None)).
  - rewrite (Hget (fun _ => Answered (GetOutput (Some (<["a" := A_BOOL true]> (row "k")))))).
    + vm_compute. reflexivity.
    + vm_compute. reflexivity.
Defined.

(** An item with a number attribute besides its keys. *)
Lemma toKV_outcome_witness :
  let it : gmap string attr := <["n" := A_N "7"]> (row "k") in
  plain_attr (A_M it) = true
  ∧ _toKV db0 it
    = Ok (KV (VString "k") (<["n" := VNumber (Int 7)]> {[ "r" := VString "k" ]}))
  ∧ match _toKV db0 it with
    | Ok r =>
        map_Forall (fun _ a => parse a = Ok (parsed a)) it
        ∧ kv_key r = default VUndefined (parsed <$> it !! "r")
        ∧ kv_value r = delete "h" (parsed <$> it)
    | Throw e => ∃ tag, e = Error ("Cannot parse " +:+ tag +:+ ".")
    end.
Proof.
  assert (Hp : plain_attr (A_M (<["n" := A_N "7"]> (row "k"))) = true).
  { vm_compute. reflexivity. }
  split; [exact Hp|]. split; [vm_compute; reflexivity|].
  apply (toKV_outcome db0 (<["n" := A_N "7"]> (row "k")) Hp).
  cbn. unfold inherited. rewrite !not_elem_of_cons.
  repeat split; [discriminate..|apply not_elem_of_nil].
Defined.

(** The round trip of a list: it holds for [[7]] and fails for [[""]]. *)
Lemma round_trip_iff_lossless_witness :
  (serialize (VArray [VNumber (Int 7)]) ≫= parse = Ok (VArray [VNumber (Int 7)])
   ↔ lossless (VArray [VNumber (Int 7)]))
  ∧ (serialize (VArray [VString ""]) ≫= parse = Ok (VArray [VString ""])
     ↔ lossless (VArray [VString ""])).
Proof.
  split.
  - exact (round_trip_iff_lossless (VArray [VNumber (Int 7)]) eq_refl).
  - exact (round_trip_iff_lossless (VArray [VString ""]) eq_refl).
Defined.



(** ** The planner *)

Section PlannerOutcomes.
Context `{Host}.



End PlannerOutcomes.


(** ** The iterator, in general *)

Section IteratorOutcomes.
Context `{Host}.

(** X13: the end of the sequence is final: once [next] has ended the sequence,
    every later call ends it again, sends no query and leaves the iterator
    as it is, whatever the state it started from and whatever the client
    would answer. *)
Theorem ended_is_stable (it : DynamoIterator) (answers : list (answer query_output)) :
  outcome (_next it answers) = Ended ->
  ∀ answers',
    _next (after (_next it answers)) answers'
    = Run Ended (after (_next it answers)) [] answers'.
Proof.
  revert it. induction answers as [|a rest IH]; intros it; rewrite _next_unfold.
  - destruct (_items it !! _cursor it) as [[r| |]|] eqn:Hlook; cbn; try done;
      destruct (at_limit it) eqn:Hat; cbn; try done;
      intros _ answers'; by rewrite _next_unfold, Hlook, ?Hat.
  - destruct (_items it !! _cursor it) as [[r| |]|] eqn:Hlook; cbn -[_next]; try done;
      destruct (at_limit it) eqn:Hat; cbn -[_next];
      try (intros _ answers'; by rewrite _next_unfold, Hlook, ?Hat);
      destruct a as [err|data]; cbn -[_next]; try done;
      destruct (push_items (it_db it) (_items it) (Items data)) as [buffer [e|]];
      cbn -[_next]; try done; apply IH.
Qed.

(** X14: with [limit: 0] the first [next] ends the sequence and no query is
    ever sent. *)
Theorem limit_zero (d : db) (o : iterator_options) (it : DynamoIterator) :
  DynamoIterator_new d o = Ok it ->
  limit o = 0%Z ->
  ∀ n answers, next_n n it answers = Run (replicate n Ended) it [] answers.
Proof.
  intros Hnew Hlimit n answers.
  pose proof (new_buffered d o it Hnew) as Hit.
  rewrite Hlimit in Hit. rewrite bool_decide_eq_true_2 in Hit by done.
  apply (next_n_drained d (Finite 0) it 0 n false answers Hit). by right.
Qed.

(** X15: the requests of any number of calls of [next], with a client that
    answers every query without error and with items that decode: each
    request is the iterator's request with, as start key, the continuation
    token of the answer before it (the iterator's own start key for the
    first); the table, the conditions, the limit and the direction never
    change; each query consumes one answer. *)
Theorem requests_follow_tokens (d : db) (n : nat) :
  ∀ (it : DynamoIterator) (answers : list (answer query_output)),
    it_db it = d ->
    Forall (well_answered d) answers ->
    Waiting ∉ outcome (next_n n it answers) ->
    let r := next_n n it answers in
    queries r
    = start_at (_params it)
        <$> take (length (queries r))
              (ExclusiveStartKey (_params it) :: (continuation <$> answers))
    ∧ unread r = drop (length (queries r)) answers.
Proof.
  intros it answers Hd Hans Hw.
  destruct (next_n_requests d n it answers Hd Hans Hw) as (Hq & Hu & _).
  by split.
Qed.

End IteratorOutcomes.

Section EmptyPages.
Context `{Host}.

(** All the pages, empty ones too, and one more call: the records, then the
    end of the sequence, with one query for each page. *)
Lemma next_pages_any (d : db) (token : list (gmap string attr) -> gmap string attr)
    (pages : list (list (gmap string attr))) :
  pages ≠ [] ->
  Forall (Forall (fun i => _toKV d i = Ok (decoded d i))) pages ->
  ∀ it c, buffered d Infinity it c [] false ->
    ∃ it' qs, next_n (S (length (concat pages))) it (paginate token pages)
              = Run ((yield <$> (decoded d <$> concat pages)) ++ [Ended]) it' qs []
      ∧ length qs = length pages
      ∧ buffered d Infinity it' (c + length (concat pages)) [] true.
Proof.
  induction pages as [|p pages IH]; [done|].
  intros _ [Hdp Hdec]%Forall_cons it c Hit.
  destruct p as [|i p].
  - (* an empty page *)
    destruct pages as [|q pages].
    + destruct (next_fetch d Infinity it c [] None [] Hit ltac:(done) Hdp)
        as (it1 & Hit1 & Hfetch).
      cbn [paginate concat app length next_n].
      rewrite Hfetch. cbn zeta.
      rewrite (next_drained d Infinity it1 c true [] Hit1 (or_introl eq_refl)).
      cbn. exists it1, [_params it]. split; [done|]. split; [done|].
      by rewrite Nat.add_0_r.
    + destruct (next_fetch d Infinity it c [] (Some (token [])) (paginate token (q :: pages))
                  Hit ltac:(done) Hdp) as (it1 & Hit1 & Hfetch).
      destruct (IH ltac:(done) Hdec it1 c Hit1) as (it2 & qs & Hrest & Hqs & Hit2).
      change (paginate token ([] :: q :: pages))
        with (Answered (QueryOutput [] (Some (token []))) :: paginate token (q :: pages)).
      change (concat ([] :: q :: pages)) with (concat (q :: pages)).
      cbn [next_n] in Hrest |- *. rewrite Hfetch. cbn zeta.
      cbn [outcome after queries unread].
      set (r1 := _next it1 (paginate token (q :: pages))) in *.
      set (rs := next_n (length (concat (q :: pages))) (after r1) (unread r1)) in *.
      injection Hrest as Hout Hafter Hq Hun.
      exists it2, (_params it :: qs). split; [|split; [cbn; by rewrite Hqs|done]].
      cbn [app]. by rewrite Hout, Hafter, Hq, Hun.
  - (* a page with items *)
    destruct pages as [|q pages].
    + destruct (next_page d Infinity it c (i :: p) None [] Hit ltac:(done) ltac:(done) Hdp)
        as (it1 & Hrun & Hit1).
      cbn [paginate concat]. rewrite app_nil_r.
      replace (S (length (i :: p))) with (length (i :: p) + 1) by lia.
      rewrite next_n_app. cbn zeta. rewrite Hrun. cbn [outcome after queries unread].
      rewrite (next_n_drained d Infinity it1 (c + length (i :: p)) 1 true [] Hit1
                 (or_introl eq_refl)).
      cbn [outcome after queries unread replicate].
      exists it1, [_params it]. by rewrite app_nil_r.
    + destruct (next_page d Infinity it c (i :: p) (Some (token (i :: p)))
                  (paginate token (q :: pages)) Hit ltac:(done) ltac:(done) Hdp)
        as (it1 & Hrun & Hit1).
      destruct (IH ltac:(done) Hdec it1 (c + length (i :: p)) Hit1)
        as (it2 & qs & Hrest & Hqs & Hit2).
      change (paginate token ((i :: p) :: q :: pages))
        with (Answered (QueryOutput (i :: p) (Some (token (i :: p))))
                :: paginate token (q :: pages)).
      rewrite (concat_cons (i :: p)), length_app.
      replace (S (length (i :: p) + length (concat (q :: pages))))
        with (length (i :: p) + S (length (concat (q :: pages)))) by lia.
      rewrite next_n_app. cbn zeta. rewrite Hrun. cbn [outcome after queries unread].
      rewrite Hrest. cbn [outcome after queries unread].
      exists it2, (_params it :: qs). split; [|split].
      * by rewrite !fmap_app, app_assoc.
      * cbn. by rewrite Hqs.
      * by rewrite Nat.add_assoc.
Qed.

(** X16: an unlimited iterator drains any sequence of pages, empty ones
    included (an empty result, or empty pages that carry a continuation
    token): after one call of [next] more than there are items, it has
    yielded the records in the client's order, then ended the sequence, with
    exactly one query for each page; it stays at the end afterwards. *)
Theorem pagination_with_empty_pages (d : db) (o : iterator_options)
    (it : DynamoIterator) (pages : list (list (gmap string attr))) (rs : list kv)
    (token : list (gmap string attr) -> gmap string attr) :
  DynamoIterator_new d o = Ok it ->
  limit o = (-1)%Z ->
  pages ≠ [] ->
  mapM (_toKV d) (concat pages) = Ok rs ->
  let r := next_n (S (length (concat pages))) it (paginate token pages) in
  outcome r = (yield <$> rs) ++ [Ended]
  ∧ length (queries r) = length pages
  ∧ unread r = []
  ∧ ∀ n answers,
      next_n n (after r) answers = Run (replicate n Ended) (after r) [] answers.
Proof.
  intros Hnew Hlimit Hpages Hrs.
  destruct (mapM_Ok_inv (_toKV d) (decoded d) (concat pages) (decoded_Ok d) rs Hrs)
    as [Hdec ->].
  destruct (next_pages_any d token pages Hpages) with (it := it) (c := 0)
    as (it' & qs & Hrun & Hqs & Hit').
  { by apply Forall_concat. }
  { pose proof (new_buffered d o it Hnew) as Hit. by rewrite Hlimit in Hit. }
  cbn zeta. rewrite Hrun. cbn -[next_n].
  repeat split; [done|].
  intros n answers.
  apply (next_n_drained d Infinity it' (0 + length (concat pages)) n true answers Hit').
  by left.
Qed.

End EmptyPages.

(** An empty page with a token, a page of two, an empty last page. *)
Lemma pagination_with_empty_pages_witness :
  let o := IteratorOptions None None None None (-1) false in
  let pages := [[]; [row "a"; row "b"]; []] in
  ∃ it, DynamoIterator_new db0 o = Ok it
    ∧ outcome (next_n 3 it (paginate last_key pages))
      = [yield (KV (VString "a") {[ "r" := VString "a" ]});
         yield (KV (VString "b") {[ "r" := VString "b" ]}); Ended]
    ∧ length (queries (next_n 3 it (paginate last_key pages))) = 3.
Proof.
  destruct (DynamoIterator_new db0 (IteratorOptions None None None None (-1) false))
    as [it|e] eqn:Hnew; [|discriminate].
  exists it. split; [exact Hnew|].
  destruct (pagination_with_empty_pages db0
    (IteratorOptions None None None None (-1) false) it
    [[]; [row "a"; row "b"]; []]
    [KV (VString "a") {[ "r" := VString "a" ]}; KV (VString "b") {[ "r" := VString "b" ]}]
    last_key Hnew eq_refl) as (Hout & Hq & _).
  - discriminate.
  - vm_compute. reflexivity.
  - split; [exact Hout|exact Hq].
Defined.

(** No record is yielded and no query is sent with [limit: 0]. *)
Lemma limit_zero_witness :
  let o := IteratorOptions None None None None 0 false in
  ∃ it, DynamoIterator_new db0 o = Ok it
    ∧ next_n 2 it [Answered (QueryOutput [row "a"] None)]
      = Run [Ended; Ended] it [] [Answered (QueryOutput [row "a"] None)].
Proof.
  destruct (DynamoIterator_new db0 (IteratorOptions None None None None 0 false))
    as [it|e] eqn:Hnew; [|discriminate].
  exists it. split; [exact Hnew|].
  exact (limit_zero db0 (IteratorOptions None None None None 0 false) it Hnew eq_refl
           2 [Answered (QueryOutput [row "a"] None)]).
Defined.

(** [limit: 2] and a first page of two items. *)
Lemma limit_on_full_page_witness :
  let o := IteratorOptions None None None None 2 false in
  let page := [row "a"; row "b"] in
  ∃ it it', DynamoIterator_new db0 o = Ok it
    ∧ next_n 2 it [Answered (QueryOutput page (Some (row "b")))]
      = Run (yield <$> (decoded db0 <$> page)) it' [_params it] []
    ∧ next_n 3 it' [Answered (QueryOutput [row "c"] None)]
      = Run [Ended; Ended; Ended] it' [] [Answered (QueryOutput [row "c"] None)].
Proof.
  destruct (DynamoIterator_new db0 (IteratorOptions None None None None 2 false))
    as [it|e] eqn:Hnew; [|discriminate].
  destruct (limit_on_full_page db0 (IteratorOptions None None None None 2 false) it
    [row "a"; row "b"] (Some (row "b")) [] Hnew) as (it' & Hrun & Hend).
  - discriminate.
  - reflexivity.
  - repeat constructor.
  - exists it, it'. split; [exact Hnew|]. split; [exact Hrun|].
    exact (Hend 3 [Answered (QueryOutput [row "c"] None)]).
Defined.

(** A sequence of outcomes without [Waiting], as a test. *)
Lemma answered_outcomes (l : list next_outcome) :
  forallb (fun o => if o is Waiting then false else true) l = true -> Waiting ∉ l.
Proof.
  induction l as [|o l IH]; cbn; [intros _; apply not_elem_of_nil|].
  intros [Ho Hl]%andb_prop. apply not_elem_of_cons. split; [|by apply IH].
  by destruct o.
Qed.

(** Two pages read to the end: the second query carries the token of the
    first answer. *)
Lemma requests_follow_tokens_witness :
  let p := QueryParams "t" ∅ None None None in
  let it := Iterator db0 Infinity false None None p [] 0 in
  let answers := [Answered (QueryOutput [row "a"] (Some (row "a")));
                  Answered (QueryOutput [row "b"] None)] in
  let r := next_n 3 it answers in
  queries r = start_at p <$> take (length (queries r)) (None :: (continuation <$> answers))
  ∧ unread r = drop (length (queries r)) answers.
Proof.
  apply (requests_follow_tokens db0 3
    (Iterator db0 Infinity false None None (QueryParams "t" ∅ None None None) [] 0)
    [Answered (QueryOutput [row "a"] (Some (row "a")));
     Answered (QueryOutput [row "b"] None)]).
  - reflexivity.
  - repeat constructor; vm_compute; reflexivity.
  - apply answered_outcomes. vm_compute. reflexivity.
Defined.

(** An empty result: the first call ends the sequence, and so does a later
    call, whatever the client would answer. *)
Lemma ended_is_stable_witness :
  let it := Iterator db0 Infinity false None None (QueryParams "t" ∅ None None None) [] 0 in
  let answers := [Answered (QueryOutput [] None)] in
  let later := [Answered (QueryOutput [row "a"] None)] in
  outcome (_next it answers) = Ended
  ∧ _next (after (_next it answers)) later
    = Run Ended (after (_next it answers)) [] later.
Proof.
  split; [reflexivity|].
  exact (ended_is_stable
    (Iterator db0 Infinity false None None (QueryParams "t" ∅ None None None) [] 0)
    [Answered (QueryOutput [] None)] eq_refl
    [Answered (QueryOutput [row "a"] None)]).
Defined.

(** ** The batched writer *)

Section BatchOutcomes.
Context `{Host}.


Lemma loop_conservation (table : string)
    (answers : list (answer (option batch_output))) :
  ∀ (ops : list write_request) (data : option batch_output)
    (calls : list (list write_request)),
    loop table ops answers (Answered data) = (Completed, calls) ->
    concat calls
    ≡ₚ unprocessed table data ++ ops
        ++ concat (answer_unprocessed table <$> take (length calls) answers).
Proof.
  induction answers as [|a rest IH]; intros ops data calls; rewrite loop_unfold; cbn zeta.
  - destruct (unprocessed table data ++ take (25 - length (unprocessed table data)) ops)
      as [|r reqs] eqn:Hreqs; [|done].
    intros [= <-]. apply app_eq_nil in Hreqs as [-> Hops]. cbn in Hops.
    by destruct ops.
  - destruct (unprocessed table data ++ take (25 - length (unprocessed table data)) ops)
      as [|r reqs] eqn:Hreqs.
    { intros [= <-]. apply app_eq_nil in Hreqs as [-> Hops]. cbn in Hops.
      by destruct ops. }
    rewrite <- Hreqs. clear r reqs Hreqs.
    destruct a as [err|data'].
    { rewrite loop_failed. done. }
    specialize (IH (drop (25 - length (unprocessed table data)) ops) data').
    destruct (loop table _ rest (Answered data')) as [o calls'].
    intros [= -> <-]. specialize (IH calls' eq_refl).
    cbn [concat length take fmap list_fmap answer_unprocessed].
    rewrite IH.
    rewrite <- (take_drop (25 - length (unprocessed table data)) ops) at 3.
    set (carried := unprocessed table data).
    set (sent := take _ ops). set (left := drop _ ops).
    set (again := unprocessed table data').
    set (later := concat _).
    rewrite <- !(assoc_L (++)).
    do 2 f_equiv.
    rewrite (assoc_L (++) again), (comm (++) again left).
    by rewrite <- !(assoc_L (++)).
Qed.



(** X19: a batch that completes has lost and added nothing: its calls hold,
    up to the order, the requests of the operations and the entries that the
    answers to these calls reported as unprocessed. *)
Theorem batch_conservation (d : db) (array : list operation)
    (answers : list (answer (option batch_output)))
    (calls : list (list write_request)) :
  _batch d array answers = Ok (Completed, calls) ->
  ∃ ops, mapM (to_request d) array = Ok ops
    ∧ concat calls
      ≡ₚ ops ++ concat (answer_unprocessed (table_name d) <$> take (length calls) answers).
Proof.
  unfold _batch. destruct (mapM (to_request d) array) as [ops|e]; [|discriminate].
  cbn -[loop]. intros [= Hrun]. exists ops. split; [done|].
  by apply loop_conservation in Hrun.
Qed.


End BatchOutcomes.

(** ** The rounds of a batch *)

Section BatchRounds.
Context `{Host}.





End BatchRounds.



(** Twenty-six puts, one entry of the first call reported as unprocessed:
    the two calls hold the twenty-six requests and this entry. *)
Lemma batch_conservation_witness :
  let array := replicate 26 (Operation (VString "put") (VString "k") (Some "{}")) in
  let answers := [Answered (Some (BatchOutput (Some {[ "t" := [put0 "a"] ]})));
                  Answered None] in
  let calls := [put0 <$> replicate 25 "k"; [put0 "a"; put0 "k"]] in
  ∃ ops, mapM (to_request db0) array = Ok ops
    ∧ concat calls
      ≡ₚ ops ++ concat (answer_unprocessed "t" <$> take (length calls) answers).
Proof.
  apply (batch_conservation db0
    (replicate 26 (Operation (VString "put") (VString "k") (Some "{}")))
    [Answered (Some (BatchOutput (Some {[ "t" := [put0 "a"] ]}))); Answered None]
    [put0 <$> replicate 25 "k"; [put0 "a"; put0 "k"]]).
  vm_compute. reflexivity.
Defined.


(** ** The constructor of the adapter and [_open] *)

Section OpenOutcomes.
Context `{Host}.

Lemma split_slash_free (p : string) :
  slash_free p = true -> split_slash p = (p, []).
Proof.
  induction p as [|c p IH]; [done|]. cbn.
  intros [Hc Hp]%andb_prop. rewrite (IH Hp).
  by destruct (Ascii.eqb c "/").
Qed.

Lemma split_slash_app (p s : string) :
  slash_free p = true ->
  split_slash (p +:+ "/" +:+ s) = (p, (split_slash s).1 :: (split_slash s).2).
Proof.
  induction p as [|c p IH].
  - intros _. change ("" +:+ "/" +:+ s) with (String "/" s).
    cbn. by destruct (split_slash s).
  - intros [Hc Hp]%andb_prop.
    change (String c p +:+ "/" +:+ s) with (String c (p +:+ "/" +:+ s)).
    cbn [split_slash]. rewrite (IH Hp). by destruct (Ascii.eqb c "/").
Qed.

Lemma split_slash_join (ps : list string) :
  ∀ p, slash_free p = true -> forallb slash_free ps = true ->
    split_slash (join_slash p ps) = (p, ps).
Proof.
  induction ps as [|q ps IH]; intros p Hp Hps; cbn [join_slash].
  - by apply split_slash_free.
  - cbn in Hps. apply andb_prop in Hps as [Hq Hps].
    rewrite split_slash_app, (IH q Hq Hps); done.
Qed.

Lemma set_names_app (l1 l2 : list key_schema_element) :
  ∀ a, set_names a (l1 ++ l2)
       = match set_names a l1 with
         | (a', Ok _) => set_names a' l2
         | r => r
         end.
Proof.
  induction l1 as [|e l1 IH]; intros a; cbn; [done|].
  destruct (set_name a _ _) as [a'|ex]; [apply IH|done].
Qed.

Lemma set_names_known (KeySchema : list key_schema_element) :
  Forall (fun e => toLowerCase (KeyType e) ∈ ["hash"; "range"]) KeySchema ->
  ∀ a, set_names a KeySchema
       = (Adapter (_table a) (schema_hash_value a)
            (from_option Some (schema_hash_name a) (last (names_of "hash" KeySchema)))
            (from_option Some (schema_range_name a) (last (names_of "range" KeySchema))),
          Ok tt).
Proof.
  induction KeySchema as [|e l IH] using rev_ind; intros Hknown a.
  - destruct a. reflexivity.
  - apply Forall_app in Hknown as [Hl [He _]%Forall_cons].
    rewrite set_names_app, (IH Hl). cbn [set_names].
    unfold names_of. rewrite !filter_app, !fmap_app, !filter_cons, !filter_nil.
    unfold set_name.
    apply elem_of_cons in He as [He|He]; [|apply list_elem_of_singleton in He];
      rewrite He; repeat case_decide; try done;
      cbn -[last]; rewrite ?last_snoc, ?app_nil_r; done.
Qed.

(** X21: the table name is the text of the location before its first slash
    and the hash value the text between the first and the second slash;
    what follows a second slash is ignored, and a location without a slash
    leaves the hash value absent.  No name of the schema is set yet. *)
Theorem location_parts (table : string) (parts : list string) :
  slash_free table = true ->
  forallb slash_free parts = true ->
  DynamoDOWN_new (join_slash table parts) = Adapter table (head parts) None None.
Proof.
  intros Htable Hparts. unfold DynamoDOWN_new.
  by rewrite split_slash_join.
Qed.

(** X22: when the table description holds only [HASH] and [RANGE] elements,
    in any spelling of upper and lower case, [_open] calls back without an
    error; the hash name is then the attribute name of the last [HASH]
    element and the range name that of the last [RANGE] element, a name
    without an element stays as it was, and the table name and the hash
    value are unchanged. *)
Theorem open_names (a : adapter) (KeySchema : list key_schema_element)
    (describeTable : string -> answer (list key_schema_element)) :
  describeTable (_table a) = Answered KeySchema ->
  Forall (fun e => toLowerCase (KeyType e) ∈ ["hash"; "range"]) KeySchema ->
  _open a describeTable
  = (Adapter (_table a) (schema_hash_value a)
       (from_option Some (schema_hash_name a) (last (names_of "hash" KeySchema)))
       (from_option Some (schema_range_name a) (last (names_of "range" KeySchema))),
     Ok None).
Proof.
  intros Hanswer Hknown. unfold _open. rewrite Hanswer.
  by rewrite (set_names_known KeySchema Hknown).
Qed.

Lemma set_names_unknown (KeySchema : list key_schema_element) :
  Exists (fun e => toLowerCase (KeyType e) ∉ ["hash"; "range"]) KeySchema ->
  ∀ a, ∃ a', set_names a KeySchema
             = (a', Throw (TypeError "Cannot set property 'name' of undefined"))
    ∧ _table a' = _table a ∧ schema_hash_value a' = schema_hash_value a.
Proof.
  induction 1 as [e l He|e l _ IH]; intros a; cbn [set_names]; unfold set_name.
  - destruct (String.eqb_spec (toLowerCase (KeyType e)) "hash") as [Hh|_].
    { destruct He. rewrite Hh. set_solver. }
    destruct (String.eqb_spec (toLowerCase (KeyType e)) "range") as [Hr|_].
    { destruct He. rewrite Hr. set_solver. }
    by exists a.
  - destruct (String.eqb (toLowerCase (KeyType e)) "hash").
    { destruct (IH (Adapter (_table a) (schema_hash_value a) (Some (AttributeName e))
                      (schema_range_name a))) as (a' & -> & Ht & Hv).
      by exists a'. }
    destruct (String.eqb (toLowerCase (KeyType e)) "range").
    { destruct (IH (Adapter (_table a) (schema_hash_value a) (schema_hash_name a)
                      (Some (AttributeName e)))) as (a' & -> & Ht & Hv).
      by exists a'. }
    by exists a.
Qed.

(** X23: when the table description holds an element whose key type is not
    [HASH] or [RANGE] in some spelling (and no element of the key types
    [constructor] and [__proto__], which the model leaves out), [_open]
    throws a [TypeError] inside the client's callback and never calls back;
    the table name and the hash value are unchanged. *)
Theorem open_unknown_key_type (a : adapter) (KeySchema : list key_schema_element)
    (describeTable : string -> answer (list key_schema_element)) :
  describeTable (_table a) = Answered KeySchema ->
  Forall (fun e => toLowerCase (KeyType e) ∉ ["constructor"; "__proto__"]) KeySchema ->
  Exists (fun e => toLowerCase (KeyType e) ∉ ["hash"; "range"]) KeySchema ->
  (_open a describeTable).2 = Throw (TypeError "Cannot set property 'name' of undefined")
  ∧ _table (_open a describeTable).1 = _table a
  ∧ schema_hash_value (_open a describeTable).1 = schema_hash_value a.
Proof.
  intros Hanswer _ Hunknown. unfold _open. rewrite Hanswer.
  destruct (set_names_unknown KeySchema Hunknown a) as (a' & -> & Ht & Hv).
  done.
Qed.



End OpenOutcomes.

(** The location [t/H/x]: table [t], hash value [H]. *)
Lemma location_parts_witness :
  DynamoDOWN_new "t/H/x" = Adapter "t" (Some "H") None None.
Proof. exact (location_parts "t" ["H"; "x"] eq_refl eq_refl). Defined.

(** The adapter of [t/H] opened on a table with the hash attribute [h] and
    the range attribute [r] has the schema of the examples. *)
Lemma open_names_witness :
  let describeTable := fun _ : string =>
    Answered [KeySchemaElement "HASH" "h"; KeySchemaElement "Range" "r"] in
  _open (DynamoDOWN_new "t/H") describeTable
  = (Adapter "t" (Some "H") (Some "h") (Some "r"), Ok None)
  ∧ schema_of (_open (DynamoDOWN_new "t/H") describeTable).1 = db0.
Proof.
  cbn zeta.
  rewrite (open_names (DynamoDOWN_new "t/H")
    [KeySchemaElement "HASH" "h"; KeySchemaElement "Range" "r"]
    (fun _ => Answered [KeySchemaElement "HASH" "h"; KeySchemaElement "Range" "r"])
    eq_refl).
  - split; reflexivity.
  - repeat constructor.
Defined.

(** A key type that is neither [HASH] nor [RANGE]. *)
Lemma open_unknown_key_type_witness :
  let describeTable := fun _ : string =>
    Answered [KeySchemaElement "HASH" "h"; KeySchemaElement "SORT" "r"] in
  (_open (DynamoDOWN_new "t/H") describeTable).2
  = Throw (TypeError "Cannot set property 'name' of undefined").
Proof.
  apply (open_unknown_key_type (DynamoDOWN_new "t/H")
    [KeySchemaElement "HASH" "h"; KeySchemaElement "SORT" "r"]
    (fun _ => Answered [KeySchemaElement "HASH" "h"; KeySchemaElement "SORT" "r"])
    eq_refl).
  - repeat constructor; cbn; rewrite !not_elem_of_cons;
      (repeat split; [discriminate..|apply not_elem_of_nil]).
  - apply Exists_cons_tl, Exists_cons_hd. cbn. rewrite !not_elem_of_cons.
    repeat split; [discriminate..|apply not_elem_of_nil].
Defined.


